(** * Animal Band – BPM Sync: the beat scheduler of [src/App.jsx]

    A shallow embedding of the timing core of the [AnimalBand] component
    (helpers [clamp] and [shouldHit], [play], [stop], [clearScheduler],
    [scheduleBeats] with its [setInterval] callback, [triggerBeat], the
    re-scheduling effect and the per-member hit flags), with the properties
    the specification states about it.

    Modelling choices, fixed here once:
    - a JavaScript number is [NaN] or a finite rational; arithmetic is exact
      (no binary64 rounding), there is no [-0] and no [Infinity].  The only
      divisors of the modelled code are [clamp tempo 40 240], [100] and [8],
      and [x % y].  Where a property turns on the rounding of the scheduler's
      additions, module [Binary64] takes the same arithmetic on binary64
      floats;
    - the two beat counters (a ref and a React state, both [0] at mount and
      only ever incremented by one) are integers;
    - the component state, its refs and the part of the browser the code
      talks to (clock, interval table, pending timeouts, Web Audio calls)
      form one record, threaded through a state-and-exception monad;
    - the event loop is driven from outside: the interval fires at whatever
      clock readings a run lists (that is the polling jitter), and a pending
      timeout runs at its due time, before anything later. *)

From Stdlib Require Import ZArith QArith Qreduction Lqa Lia Bool List String.
From Stdlib Require Floats.
Import ListNotations.

(* ================================================================== *)
(** * JavaScript numbers *)
(* ================================================================== *)

Module Js.

Inductive number : Type :=
| NaN
| Fin (q : Q).

Definition of_Z (z : Z) : number := Fin (inject_Z z).

(** Truncation towards zero, the rounding [%] uses. *)
Definition Qtrunc (q : Q) : Z := Z.quot (Qnum q) (Zpos (Qden q)).

Definition lift2 (f : Q -> Q -> Q) (a b : number) : number :=
  match a, b with
  | Fin x, Fin y => Fin (Qred (f x y))
  | _, _ => NaN
  end.

Definition add : number -> number -> number := lift2 Qplus.
Definition mul : number -> number -> number := lift2 Qmult.

(** [x / y].  JavaScript answers [Infinity] for a non-zero [x] over [0];
    the model has no infinities and answers [NaN] there. *)
Definition div (a b : number) : number :=
  match a, b with
  | Fin x, Fin y => if Qeq_bool y 0 then NaN else Fin (Qred (x / y))
  | _, _ => NaN
  end.

(** [x % y]: the remainder has the sign of the dividend; [x % 0] and any
    remainder with a [NaN] operand is [NaN]. *)
Definition rem (a b : number) : number :=
  match a, b with
  | Fin x, Fin y =>
      if Qeq_bool y 0 then NaN
      else Fin (Qred (x - y * inject_Z (Qtrunc (x / y))))
  | _, _ => NaN
  end.

(** [x >= y]: false as soon as one side is [NaN]. *)
Definition ge (a b : number) : bool :=
  match a, b with
  | Fin x, Fin y => Qle_bool y x
  | _, _ => false
  end.

(** [x === y] on numbers: [NaN] is not equal to anything. *)
Definition strict_eq (a b : number) : bool :=
  match a, b with
  | Fin x, Fin y => Qeq_bool x y
  | _, _ => false
  end.

(** [Object.is] on numbers (React compares effect dependencies with it). *)
Definition Object_is (a b : number) : bool :=
  match a, b with
  | NaN, NaN => true
  | Fin x, Fin y => Qeq_bool x y
  | _, _ => false
  end.

(** The value a number denotes: [x ~= q] when [x] is the finite number [q]. *)
Definition denotes (x : number) (q : Q) : Prop :=
  match x with
  | Fin p => p == q
  | NaN => False
  end.

End Js.

Module Math.
Import Js.

(** [Math.max(a, b)] and [Math.min(a, b)]: [NaN] if either argument is. *)
Definition max (a b : number) : number :=
  match a, b with
  | Fin x, Fin y => if Qle_bool x y then Fin y else Fin x
  | _, _ => NaN
  end.

Definition min (a b : number) : number :=
  match a, b with
  | Fin x, Fin y => if Qle_bool x y then Fin x else Fin y
  | _, _ => NaN
  end.

End Math.

Import Js.
Coercion Fin : Q >-> number.

Declare Scope js_scope.
Delimit Scope js_scope with js.
Bind Scope js_scope with number.
Infix "+" := add : js_scope.
Infix "*" := mul : js_scope.
Infix "/" := div : js_scope.
Infix "rem" := rem (at level 40, no associativity) : js_scope.  (* JavaScript [%] *)
Infix ">=" := ge : js_scope.
Infix "===" := strict_eq (at level 70, no associativity) : js_scope.
Infix "~=" := denotes (at level 70, no associativity).

(** [a ?? b] where [a] may be [null]. *)
Definition nullish {A : Type} (a : option A) (b : A) : A :=
  match a with Some x => x | None => b end.
Infix "??" := nullish (at level 45, left associativity).

Open Scope Q_scope.

(* ================================================================== *)
(** * Helpers (App.jsx, lines 7 and 9) *)
(* ================================================================== *)

(** [const clamp = (n, min, max) => Math.max(min, Math.min(max, n));] *)
Definition clamp (n min max : number) : number :=
  Math.max min (Math.min max n).

(** [const shouldHit = (beatIndex, subdivision = 1) =>
       beatIndex % subdivision === 0;]
    The default applies when the argument is [undefined], here [None]. *)
Definition shouldHit (beatIndex : number) (subdivision : option number) : bool :=
  let subdivision := subdivision ?? Fin 1 in
  (beatIndex rem subdivision === Fin 0)%js.

(* ================================================================== *)
(** * The component, its refs and the browser around it *)
(* ================================================================== *)

(** A decoded [AudioBuffer] and the [AudioBufferSourceNode] playing it.
    [start()] has been called on a source iff [src_started]. *)
Definition AudioBuffer : Type := nat.

Record BufferSource : Type := {
  src_id : positive;
  src_buffer : AudioBuffer;
  src_started : bool
}.

Variant AudioContext : Type := AudioCtx.

(** What the arrow function handed to [setInterval] closes over. *)
Record Closure : Type := {
  interval : number;
  swingAmt : number
}.

(** React state of [AnimalBand] ([useState], lines 316-337). *)
Record State : Type := {
  isPlaying : bool;
  bpm : option number;
  manualBpm : number;
  offsetMs : number;
  quantize : string;
  swing : number;
  beatCount : Z;
  hitPulse : bool;
  activeArm : Z
}.

(** The refs ([useRef], lines 343-348). *)
Record Refs : Type := {
  audioCtxRef : option AudioContext;
  audioBufferRef : option AudioBuffer;
  sourceRef : option BufferSource;
  nextBeatTimeRef : number;
  schedulerTimerRef : option positive;
  beatIndexRef : Z
}.

(** What leaves the component: calls into Web Audio and the timer API,
    [alert], and the commits of the two pieces of state the stage renders
    from ([hitPulse], when its value changes, and [beatCount]). *)
Variant event : Type :=
| SourceStarted (s : positive)
| SourceStopped (s : positive)
| SourceDisconnected (s : positive)
| IntervalSet (id : positive) (delay : number)
| IntervalCleared (id : positive)
| TimeoutSet (id : positive) (due : Q)
| PulseChanged (at_ms : Q) (v : bool)
| BeatCounted (n : Z)
| Alert (msg : string).

(** The browser: [performance.now()], the live [setInterval] callbacks, the
    pending [setTimeout] callbacks (all of them [() => setHitPulse(false)],
    kept with their due time), fresh handles, and the trace of events. *)
Record Browser : Type := {
  clock : Q;
  intervals : list (positive * Closure);
  timeouts : list (positive * Q);
  nextId : positive;
  nextSource : positive;
  trace : list event
}.

Record World : Type := {
  st : State;
  refs : Refs;
  env : Browser
}.

(** ** Field updates *)

Definition set_isPlaying (v : bool) (s : State) : State :=
  {| isPlaying := v; bpm := bpm s; manualBpm := manualBpm s; offsetMs := offsetMs s;
     quantize := quantize s; swing := swing s; beatCount := beatCount s;
     hitPulse := hitPulse s; activeArm := activeArm s |}.
Definition set_manualBpm (v : number) (s : State) : State :=
  {| isPlaying := isPlaying s; bpm := bpm s; manualBpm := v; offsetMs := offsetMs s;
     quantize := quantize s; swing := swing s; beatCount := beatCount s;
     hitPulse := hitPulse s; activeArm := activeArm s |}.
Definition set_offsetMs (v : number) (s : State) : State :=
  {| isPlaying := isPlaying s; bpm := bpm s; manualBpm := manualBpm s; offsetMs := v;
     quantize := quantize s; swing := swing s; beatCount := beatCount s;
     hitPulse := hitPulse s; activeArm := activeArm s |}.
Definition set_quantize (v : string) (s : State) : State :=
  {| isPlaying := isPlaying s; bpm := bpm s; manualBpm := manualBpm s; offsetMs := offsetMs s;
     quantize := v; swing := swing s; beatCount := beatCount s;
     hitPulse := hitPulse s; activeArm := activeArm s |}.
Definition set_swing (v : number) (s : State) : State :=
  {| isPlaying := isPlaying s; bpm := bpm s; manualBpm := manualBpm s; offsetMs := offsetMs s;
     quantize := quantize s; swing := v; beatCount := beatCount s;
     hitPulse := hitPulse s; activeArm := activeArm s |}.
Definition set_beatCount (v : Z) (s : State) : State :=
  {| isPlaying := isPlaying s; bpm := bpm s; manualBpm := manualBpm s; offsetMs := offsetMs s;
     quantize := quantize s; swing := swing s; beatCount := v;
     hitPulse := hitPulse s; activeArm := activeArm s |}.
Definition set_hitPulse (v : bool) (s : State) : State :=
  {| isPlaying := isPlaying s; bpm := bpm s; manualBpm := manualBpm s; offsetMs := offsetMs s;
     quantize := quantize s; swing := swing s; beatCount := beatCount s;
     hitPulse := v; activeArm := activeArm s |}.
Definition set_activeArm (v : Z) (s : State) : State :=
  {| isPlaying := isPlaying s; bpm := bpm s; manualBpm := manualBpm s; offsetMs := offsetMs s;
     quantize := quantize s; swing := swing s; beatCount := beatCount s;
     hitPulse := hitPulse s; activeArm := v |}.

Definition set_audioCtxRef (v : option AudioContext) (r : Refs) : Refs :=
  {| audioCtxRef := v; audioBufferRef := audioBufferRef r; sourceRef := sourceRef r;
     nextBeatTimeRef := nextBeatTimeRef r; schedulerTimerRef := schedulerTimerRef r;
     beatIndexRef := beatIndexRef r |}.
Definition set_audioBufferRef (v : option AudioBuffer) (r : Refs) : Refs :=
  {| audioCtxRef := audioCtxRef r; audioBufferRef := v; sourceRef := sourceRef r;
     nextBeatTimeRef := nextBeatTimeRef r; schedulerTimerRef := schedulerTimerRef r;
     beatIndexRef := beatIndexRef r |}.
Definition set_sourceRef (v : option BufferSource) (r : Refs) : Refs :=
  {| audioCtxRef := audioCtxRef r; audioBufferRef := audioBufferRef r; sourceRef := v;
     nextBeatTimeRef := nextBeatTimeRef r; schedulerTimerRef := schedulerTimerRef r;
     beatIndexRef := beatIndexRef r |}.
Definition set_nextBeatTimeRef (v : number) (r : Refs) : Refs :=
  {| audioCtxRef := audioCtxRef r; audioBufferRef := audioBufferRef r; sourceRef := sourceRef r;
     nextBeatTimeRef := v; schedulerTimerRef := schedulerTimerRef r;
     beatIndexRef := beatIndexRef r |}.
Definition set_schedulerTimerRef (v : option positive) (r : Refs) : Refs :=
  {| audioCtxRef := audioCtxRef r; audioBufferRef := audioBufferRef r; sourceRef := sourceRef r;
     nextBeatTimeRef := nextBeatTimeRef r; schedulerTimerRef := v;
     beatIndexRef := beatIndexRef r |}.
Definition set_beatIndexRef (v : Z) (r : Refs) : Refs :=
  {| audioCtxRef := audioCtxRef r; audioBufferRef := audioBufferRef r; sourceRef := sourceRef r;
     nextBeatTimeRef := nextBeatTimeRef r; schedulerTimerRef := schedulerTimerRef r;
     beatIndexRef := v |}.

Definition set_clock (v : Q) (b : Browser) : Browser :=
  {| clock := v; intervals := intervals b; timeouts := timeouts b;
     nextId := nextId b; nextSource := nextSource b; trace := trace b |}.
Definition set_intervals (v : list (positive * Closure)) (b : Browser) : Browser :=
  {| clock := clock b; intervals := v; timeouts := timeouts b;
     nextId := nextId b; nextSource := nextSource b; trace := trace b |}.
Definition set_timeouts (v : list (positive * Q)) (b : Browser) : Browser :=
  {| clock := clock b; intervals := intervals b; timeouts := v;
     nextId := nextId b; nextSource := nextSource b; trace := trace b |}.
Definition set_nextId (v : positive) (b : Browser) : Browser :=
  {| clock := clock b; intervals := intervals b; timeouts := timeouts b;
     nextId := v; nextSource := nextSource b; trace := trace b |}.
Definition set_nextSource (v : positive) (b : Browser) : Browser :=
  {| clock := clock b; intervals := intervals b; timeouts := timeouts b;
     nextId := nextId b; nextSource := v; trace := trace b |}.
Definition set_trace (v : list event) (b : Browser) : Browser :=
  {| clock := clock b; intervals := intervals b; timeouts := timeouts b;
     nextId := nextId b; nextSource := nextSource b; trace := v |}.

Definition on_st (f : State -> State) (w : World) : World :=
  {| st := f (st w); refs := refs w; env := env w |}.
Definition on_refs (f : Refs -> Refs) (w : World) : World :=
  {| st := st w; refs := f (refs w); env := env w |}.
Definition on_env (f : Browser -> Browser) (w : World) : World :=
  {| st := st w; refs := refs w; env := f (env w) |}.

(* ================================================================== *)
(** * Running JavaScript: state and exceptions *)
(* ================================================================== *)

Variant exn : Type := InvalidStateError.

Variant completion (A : Type) : Type :=
| Normal (a : A)
| Throw (e : exn).
Arguments Normal {A} a.
Arguments Throw {A} e.

Definition M (A : Type) : Type := World -> completion A * World.

Definition ret {A : Type} (a : A) : M A := fun w => (Normal a, w).

Definition bind {A B : Type} (m : M A) (f : A -> M B) : M B :=
  fun w =>
    match m w with
    | (Normal a, w') => f a w'
    | (Throw e, w') => (Throw e, w')
    end.

Definition throw {A : Type} (e : exn) : M A := fun w => (Throw e, w).

(** [try { m } catch {}] *)
Definition try_catch (m : M unit) : M unit :=
  fun w =>
    match m w with
    | (Throw _, w') => (Normal tt, w')
    | r => r
    end.

Definition gets {A : Type} (f : World -> A) : M A := fun w => (Normal (f w), w).
Definition modify (f : World -> World) : M unit := fun w => (Normal tt, f w).

Definition exec {A : Type} (m : M A) (w : World) : World := snd (m w).
Definition outcome {A : Type} (m : M A) (w : World) : completion A := fst (m w).

Declare Scope monad_scope.
Delimit Scope monad_scope with monad.
Notation "x <- m ;; k" := (bind m (fun x => k))
  (at level 61, m at next level, right associativity) : monad_scope.
Notation "m ;; k" := (bind m (fun _ => k))
  (at level 61, right associativity) : monad_scope.
Open Scope monad_scope.

Definition when (c : bool) (m : M unit) : M unit := if c then m else ret tt.

Definition emit (ev : event) : M unit :=
  modify (on_env (fun b => set_trace (trace b ++ [ev]) b)).

(* ================================================================== *)
(** * Browser and Web Audio primitives *)
(* ================================================================== *)

(** [performance.now()] *)
Definition performance_now : M number :=
  gets (fun w => Fin (clock (env w))).

Definition remove_id {A : Type} (id : positive) (l : list (positive * A))
  : list (positive * A) :=
  filter (fun e => negb (Pos.eqb (fst e) id)) l.

Fixpoint lookup_id {A : Type} (id : positive) (l : list (positive * A))
  : option A :=
  match l with
  | [] => None
  | (k, a) :: rest => if Pos.eqb k id then Some a else lookup_id id rest
  end.

(** [window.setInterval(callback, delay)]: the handle is a fresh integer
    greater than zero, hence truthy. *)
Definition window_setInterval (c : Closure) (delay : number) : M positive :=
  id <- gets (fun w => nextId (env w));;
  modify (on_env (fun b =>
    set_nextId (Pos.succ id) (set_intervals ((id, c) :: intervals b) b)));;
  emit (IntervalSet id delay);;
  ret id.

(** [window.clearInterval(id)] *)
Definition window_clearInterval (id : positive) : M unit :=
  modify (on_env (fun b => set_intervals (remove_id id (intervals b)) b));;
  emit (IntervalCleared id).

(** [setTimeout(() => setHitPulse(false), delay)]: due [delay] ms from now. *)
Definition window_setTimeout (delay : Q) : M positive :=
  id <- gets (fun w => nextId (env w));;
  now <- gets (fun w => clock (env w));;
  let due := Qred (now + delay) in
  modify (on_env (fun b =>
    set_nextId (Pos.succ id) (set_timeouts (timeouts b ++ [(id, due)]) b)));;
  emit (TimeoutSet id due);;
  ret id.

(** [ctx.createBufferSource()] followed by [src.buffer = buf]. *)
Definition createBufferSource (ctx : AudioContext) (buf : AudioBuffer)
  : M BufferSource :=
  id <- gets (fun w => nextSource (env w));;
  modify (on_env (fun b => set_nextSource (Pos.succ id) b));;
  ret {| src_id := id; src_buffer := buf; src_started := false |}.

(** [src.connect(ctx.destination); src.start()] *)
Definition source_start (src : BufferSource) : M BufferSource :=
  emit (SourceStarted (src_id src));;
  ret {| src_id := src_id src; src_buffer := src_buffer src; src_started := true |}.

(** [src.stop()] throws [InvalidStateError] on a source never started. *)
Definition source_stop (src : BufferSource) : M unit :=
  if src_started src then emit (SourceStopped (src_id src))
  else throw InvalidStateError.

(** [src.disconnect()] *)
Definition source_disconnect (src : BufferSource) : M unit :=
  emit (SourceDisconnected (src_id src)).

(** [alert(msg)] *)
Definition alert (msg : string) : M unit := emit (Alert msg).

(** ** React state setters *)

Definition setIsPlaying (v : bool) : M unit := modify (on_st (set_isPlaying v)).

Definition setBeatCount (f : Z -> Z) : M unit :=
  c <- gets (fun w => beatCount (st w));;
  modify (on_st (set_beatCount (f c)));;
  emit (BeatCounted (f c)).

(** Setting [hitPulse] to the value it has does not re-render. *)
Definition setHitPulse (v : bool) : M unit :=
  old <- gets (fun w => hitPulse (st w));;
  now <- gets (fun w => clock (env w));;
  modify (on_st (set_hitPulse v));;
  when (negb (Bool.eqb old v)) (emit (PulseChanged now v)).

Definition setActiveArm (f : Z -> Z) : M unit :=
  a <- gets (fun w => activeArm (st w));;
  modify (on_st (set_activeArm (f a))).

(* ================================================================== *)
(** * AnimalBand: play, stop and the scheduler (App.jsx, lines 365-411) *)
(* ================================================================== *)

(** [const clearScheduler = () => { if (schedulerTimerRef.current){
       window.clearInterval(schedulerTimerRef.current);
       schedulerTimerRef.current=null; }};] *)
Definition clearScheduler : M unit :=
  t <- gets (fun w => schedulerTimerRef (refs w));;
  match t with
  | Some id =>
      window_clearInterval id;;
      modify (on_refs (set_schedulerTimerRef None))
  | None => ret tt
  end.

(** [const stop = () => { if (sourceRef.current) {
       try{sourceRef.current.stop();}catch{}
       sourceRef.current.disconnect(); sourceRef.current=null; }
     setIsPlaying(false); clearScheduler(); };] *)
Definition stop : M unit :=
  s <- gets (fun w => sourceRef (refs w));;
  match s with
  | Some src =>
      try_catch (source_stop src);;
      source_disconnect src;;
      modify (on_refs (set_sourceRef None))
  | None => ret tt
  end;;
  setIsPlaying false;;
  clearScheduler.

(** [const triggerBeat = () => {
       beatIndexRef.current += 1;
       setBeatCount((c)=>c+1);
       setHitPulse(true); setTimeout(()=>setHitPulse(false), 100);
       setActiveArm((a)=>(a+1)%8); };] *)
Definition triggerBeat : M unit :=
  modify (on_refs (fun r => set_beatIndexRef (beatIndexRef r + 1)%Z r));;
  setBeatCount (fun c => (c + 1)%Z);;
  setHitPulse true;;
  _ <- window_setTimeout 100;;
  setActiveArm (fun a => Z.rem (a + 1) 8).

(** The two constants of the callback below:
    [const isOffBeat = (beatIndexRef.current % 2) === 1;
     const swingDelta = isOffBeat ? interval * swingAmt * 0.5 : 0;] *)
Definition swingDelta (c : Closure) (index : Z) : number :=
  let isOffBeat := (Z.rem index 2 =? 1)%Z in
  if isOffBeat then (interval c * swingAmt c * Fin 0.5)%js else Fin 0.

(** The arrow function [scheduleBeats] hands to [setInterval]:
    [() => { const now = performance.now();
       if (now >= nextBeatTimeRef.current) {
         triggerBeat();
         const isOffBeat = (beatIndexRef.current % 2) === 1;
         const swingDelta = isOffBeat ? interval * swingAmt * 0.5 : 0;
         nextBeatTimeRef.current += interval + swingDelta; } }] *)
Definition schedulerCallback (c : Closure) : M unit :=
  now <- performance_now;;
  next <- gets (fun w => nextBeatTimeRef (refs w));;
  if (now >= next)%js then
    triggerBeat;;
    index <- gets (fun w => beatIndexRef (refs w));;
    modify (on_refs (fun r =>
      set_nextBeatTimeRef (nextBeatTimeRef r + (interval c + swingDelta c index))%js r))
  else ret tt.

(** [const scheduleBeats = (tempo) => {
       const beatMs = 60000 / clamp(tempo, 40, 240);
       const q = quantize === "1/1" ? 1 : quantize === "1/2" ? 0.5 : 0.25;
       const interval = beatMs * q; const swingAmt = swing / 100;
       nextBeatTimeRef.current = performance.now() + offsetMs;
       clearScheduler();
       schedulerTimerRef.current = window.setInterval(<callback>,
         Math.max(4, Math.min(16, interval/8))); };] *)
Definition scheduleBeats (tempo : number) : M unit :=
  quantize <- gets (fun w => quantize (st w));;
  swing <- gets (fun w => swing (st w));;
  offsetMs <- gets (fun w => offsetMs (st w));;
  let beatMs := (Fin 60000 / clamp tempo 40 240)%js in
  let q := if String.eqb quantize "1/1" then Fin 1
           else if String.eqb quantize "1/2" then Fin 0.5 else Fin 0.25 in
  let interval := (beatMs * q)%js in
  let swingAmt := (swing / Fin 100)%js in
  now <- performance_now;;
  modify (on_refs (set_nextBeatTimeRef (now + offsetMs)%js));;
  clearScheduler;;
  id <- window_setInterval {| interval := interval; swingAmt := swingAmt |}
          (Math.max 4 (Math.min 16 (interval / Fin 8)%js));;
  modify (on_refs (set_schedulerTimerRef (Some id))).

(** [src.onended = () => { setIsPlaying(false); clearScheduler(); };] *)
Definition onended : M unit :=
  setIsPlaying false;;
  clearScheduler.

(** [const play = (buffer) => {
       const buf = buffer ?? audioBufferRef.current; if (!buf) return;
       stop();
       const ctx = audioCtxRef.current ?? new AudioContext();
       audioCtxRef.current = ctx;
       const src = ctx.createBufferSource();
       src.buffer = buf; src.connect(ctx.destination); src.start();
       sourceRef.current = src; setIsPlaying(true);
       scheduleBeats(bpm ?? manualBpm);
       src.onended = ...; };]
    The button calls [play()], i.e. with [buffer] undefined; the inner
    [match] is [buffer ?? audioBufferRef.current], whose right-hand side
    may be [null] as well. *)
Definition play (buffer : option AudioBuffer) : M unit :=
  current <- gets (fun w => audioBufferRef (refs w));;
  match (match buffer with Some b => Some b | None => current end) with
  | None => ret tt
  | Some buf =>
      stop;;
      c <- gets (fun w => audioCtxRef (refs w));;
      let ctx := c ?? AudioCtx in
      modify (on_refs (set_audioCtxRef (Some ctx)));;
      src <- createBufferSource ctx buf;;
      src <- source_start src;;
      modify (on_refs (set_sourceRef (Some src)));;
      setIsPlaying true;;
      b <- gets (fun w => bpm (st w));;
      m <- gets (fun w => manualBpm (st w));;
      scheduleBeats (b ?? m)
  end.

(** [const detectBpm = async () => { alert("..."); };] *)
Definition detectBpm : M unit :=
  alert "Automatic BPM detection isn't available here – set BPM manually.".

(** [useEffect(()=>{ if (!isPlaying) return; scheduleBeats(bpm ?? manualBpm); },
      [bpm, manualBpm, quantize, swing, offsetMs]);] *)
Definition rescheduleEffect : M unit :=
  p <- gets (fun w => isPlaying (st w));;
  if negb p then ret tt
  else
    b <- gets (fun w => bpm (st w));;
    m <- gets (fun w => manualBpm (st w));;
    scheduleBeats (b ?? m).

(** The four controls: the new value is committed and, when it differs
    from the old one ([Object.is]), the effect above runs. *)
Definition setManualBpm (v : number) : M unit :=
  old <- gets (fun w => manualBpm (st w));;
  modify (on_st (set_manualBpm v));;
  when (negb (Object_is old v)) rescheduleEffect.

Definition setQuantize (v : string) : M unit :=
  old <- gets (fun w => quantize (st w));;
  modify (on_st (set_quantize v));;
  when (negb (String.eqb old v)) rescheduleEffect.

Definition setSwing (v : number) : M unit :=
  old <- gets (fun w => swing (st w));;
  modify (on_st (set_swing v));;
  when (negb (Object_is old v)) rescheduleEffect.

Definition setOffsetMs (v : number) : M unit :=
  old <- gets (fun w => offsetMs (st w));;
  modify (on_st (set_offsetMs v));;
  when (negb (Object_is old v)) rescheduleEffect.

(** ** The band and the per-member hit flags (lines 328-332, 416-418) *)

Record Member : Type := {
  id : string;
  name : string;
  instrument : string;
  subdivision : number
}.

Definition band : list Member :=
  [ {| id := "octo"; name := "Octopus – Drums"; instrument := "drums"; subdivision := Fin 1 |};
    {| id := "seahorse"; name := "Seahorse – Violin"; instrument := "violin"; subdivision := Fin 1 |};
    {| id := "seal"; name := "Seal – Bass"; instrument := "bass"; subdivision := Fin 2 |} ].

Definition hitFlag (i : nat) (w : World) : bool :=
  shouldHit (of_Z (beatCount (st w))) (option_map subdivision (nth_error band i))
  && hitPulse (st w).

Definition hitDrums : World -> bool := hitFlag 0.
Definition hitViolin : World -> bool := hitFlag 1.
Definition hitBass : World -> bool := hitFlag 2.

(* ================================================================== *)
(** * The event loop *)
(* ================================================================== *)

(** The browser runs the timeouts that are due, oldest first, each no
    earlier than its due time. *)
Fixpoint runTimeouts (t : Q) (pending : list (positive * Q)) : M unit :=
  match pending with
  | [] => ret tt
  | (id, due) :: rest =>
      if Qle_bool due t then
        modify (on_env (fun b =>
          set_clock (if Qle_bool (clock b) due then due else clock b)
            (set_timeouts (remove_id id (timeouts b)) b)));;
        setHitPulse false;;
        runTimeouts t rest
      else runTimeouts t rest
  end.

(** Time passes until [t]. *)
Definition elapse (t : Q) : M unit :=
  pending <- gets (fun w => timeouts (env w));;
  runTimeouts t pending;;
  modify (on_env (set_clock t)).

(** The interval [id] fires, if it is still live. *)
Definition fire (id : positive) : M unit :=
  cb <- gets (fun w => lookup_id id (intervals (env w)));;
  match cb with
  | Some c => schedulerCallback c
  | None => ret tt
  end.

(** One poll of the scheduler at time [t]. *)
Definition poll (id : positive) (t : Q) : M unit :=
  elapse t;;
  fire id.

Fixpoint polls (id : positive) (ts : list Q) : M unit :=
  match ts with
  | [] => ret tt
  | t :: rest => poll id t;; polls id rest
  end.

(** The component as mounted, and after a file has been picked and decoded. *)
Definition mounted : World :=
  {| st := {| isPlaying := false; bpm := None; manualBpm := Fin 120; offsetMs := Fin 0;
              quantize := "1/1"; swing := Fin 0; beatCount := 0; hitPulse := false;
              activeArm := 0 |};
     refs := {| audioCtxRef := None; audioBufferRef := None; sourceRef := None;
                nextBeatTimeRef := Fin 0; schedulerTimerRef := None; beatIndexRef := 0 |};
     env := {| clock := 0; intervals := []; timeouts := []; nextId := 1;
               nextSource := 1; trace := [] |} |}.

(** [onAudioPick], once [decodeAudioData] has resolved with [buffer]. *)
Definition onAudioPick (buffer : AudioBuffer) : M unit :=
  c <- gets (fun w => audioCtxRef (refs w));;
  modify (on_refs (set_audioCtxRef (Some (c ?? AudioCtx))));;
  modify (on_refs (set_audioBufferRef (Some buffer))).

Definition loaded : World := exec (onAudioPick 0%nat) mounted.

(** The callback the scheduler is armed with, if any. *)
Definition armed (w : World) : option Closure :=
  match schedulerTimerRef (refs w) with
  | Some id => lookup_id id (intervals (env w))
  | None => None
  end.

(* ================================================================== *)
(** * Observations: what the properties below are stated with *)
(* ================================================================== *)

(** Nothing is running: no audio source, no armed timer, not playing. *)
Definition idle (w : World) : Prop :=
  sourceRef (refs w) = None /\
  schedulerTimerRef (refs w) = None /\
  isPlaying (st w) = false.

(** At most one interval is live, and it is the one [schedulerTimerRef]
    holds: the poll loop of the component is the polls of that interval. *)
Definition one_timer (w : World) : Prop :=
  match schedulerTimerRef (refs w) with
  | Some id => exists c : Closure, intervals (env w) = [(id, c)]
  | None => intervals (env w) = []
  end.

(** The beat counts and the pulse changes a trace shows, in order. *)
Definition beats (tr : list event) : list Z :=
  flat_map (fun ev => match ev with BeatCounted n => [n] | _ => [] end) tr.

Definition pulses (tr : list event) : list (Q * bool) :=
  flat_map (fun ev => match ev with PulseChanged t v => [(t, v)] | _ => [] end) tr.

(** [quiet w w']: from [w] to [w'] only timeouts ran: the refs, the live
    intervals, the handle counter, every piece of state but [hitPulse], and
    the beats of the trace are the same. *)
Definition quiet (w w' : World) : Prop :=
  refs w' = refs w /\
  intervals (env w') = intervals (env w) /\
  nextId (env w') = nextId (env w) /\
  set_hitPulse false (st w') = set_hitPulse false (st w) /\
  beats (trace (env w')) = beats (trace (env w)).

(** [upfrom a n] is [a; a+1; ...; a+n-1]. *)
Fixpoint upfrom (a : Z) (n : nat) : list Z :=
  match n with
  | O => []
  | S k => a :: upfrom (a + 1) k
  end.

(** Among the [n] beats fired after the counter stood at [b0] (indices
    [b0+1 .. b0+n]), how many the callback takes for off-beats. *)
Definition offBeats (b0 : Z) (n : nat) : Z :=
  Z.of_nat (List.length (filter (fun index => (Z.rem index 2 =? 1)%Z) (upfrom (b0 + 1) n))).

(** The time planned for the beat that follows [n] fired ones. *)
Definition planned (anchor i sa : Q) (b0 : Z) (n : nat) : Q :=
  anchor + inject_Z (Z.of_nat n) * i + inject_Z (offBeats b0 n) * (i * sa * (1 # 2)).

(** Whether the pulse is on once the clock has reached [t]. *)
Definition pulseAt (t : Q) (w : World) : bool :=
  hitPulse (st (exec (elapse t) w)).

(** The claim of C2 for a beat that arrived at [t2] while the pulse was
    on: the pulse is extended, it stays on until [t2 + 100]. *)
Definition pulse_extended (t2 : Q) (w : World) : Prop :=
  forall t : Q, t2 <= t -> t < t2 + 100 -> pulseAt t w = true.

(** The four controls the effect depends on. *)
Variant change : Type :=
| Tempo (v : number)
| Quantize (v : string)
| Swing (v : number)
| Offset (v : number).

Definition apply_change (ch : change) : M unit :=
  match ch with
  | Tempo v => setManualBpm v
  | Quantize v => setQuantize v
  | Swing v => setSwing v
  | Offset v => setOffsetMs v
  end.

Definition commit (ch : change) (s : State) : State :=
  match ch with
  | Tempo v => set_manualBpm v s
  | Quantize v => set_quantize v s
  | Swing v => set_swing v s
  | Offset v => set_offsetMs v s
  end.

(** The control really moves: the new value is not the old one. *)
Definition differs (ch : change) (s : State) : bool :=
  match ch with
  | Tempo v => negb (Object_is (manualBpm s) v)
  | Quantize v => negb (String.eqb (quantize s) v)
  | Swing v => negb (Object_is (swing s) v)
  | Offset v => negb (Object_is (offsetMs s) v)
  end.

(** The Web Audio calls of a trace. *)
Definition audio (tr : list event) : list event :=
  filter (fun ev => match ev with
                    | SourceStarted _ | SourceStopped _ | SourceDisconnected _ => true
                    | _ => false
                    end) tr.

(** The claim of C6: the change leaves the time the running schedule had
    planned for the next beat where it was. *)
Definition anchor_kept (ch : change) (w : World) : Prop :=
  nextBeatTimeRef (refs (exec (apply_change ch) w)) = nextBeatTimeRef (refs w).

(** The claim of C9 as the specification words it: without a decoded buffer
    [play] fails, i.e. throws, or tells the user through [alert]. *)
Definition play_reports_missing_media (w : World) : Prop :=
  (exists e, outcome (play None) w = Throw e) \/
  (exists msg, In (Alert msg) (trace (env (exec (play None) w)))).

(** Symbolic runs keep arithmetic folded. *)
Arguments Qred : simpl never.
Arguments Qplus : simpl never.
Arguments Qmult : simpl never.
Arguments Qle_bool : simpl never.
Arguments Qeq_bool : simpl never.
Arguments Js.add : simpl never.
Arguments Js.mul : simpl never.
Arguments Js.div : simpl never.
Arguments Js.ge : simpl never.
Arguments clamp : simpl never.
Arguments Math.max : simpl never.
Arguments Math.min : simpl never.
Arguments String.eqb : simpl never.

(** Settle the comparisons of a symbolic run from the hypotheses. *)
Ltac decide_Qle :=
  repeat match goal with
  | |- context [Qle_bool ?a ?b] =>
      first
        [ replace (Qle_bool a b) with true
            by (symmetry; apply Qle_bool_iff; rewrite ?Qred_correct; lra)
        | replace (Qle_bool a b) with false
            by (symmetry; apply not_true_is_false;
                rewrite Qle_bool_iff, ?Qred_correct; lra) ]
  end.

Ltac run_world :=
  unfold exec, poll, fire, elapse, triggerBeat, setBeatCount, setHitPulse,
    window_setTimeout, setActiveArm, emit, when, bind, gets, modify, ret,
    on_st, on_refs, on_env;
  cbn;
  repeat (progress (decide_Qle; cbn)).

(* ================================================================== *)
(** * Facts about numbers *)
(* ================================================================== *)

Section NumberFacts.

Lemma Qle_bool_false (x y : Q) : Qle_bool x y = false -> y < x.
Proof.
  intro H. apply Qnot_le_lt. intro L.
  apply Qle_bool_iff in L. congruence.
Qed.

Lemma Qeq_bool_false (x y : Q) : ~ x == y -> Qeq_bool x y = false.
Proof.
  intro H. destruct (Qeq_bool x y) eqn:E; [|reflexivity].
  apply Qeq_bool_iff in E. contradiction.
Qed.

Lemma Qtrunc_inject_div (b k : Z) :
  (k <> 0)%Z -> Qtrunc (inject_Z b / inject_Z k) = (b ÷ k)%Z.
Proof.
  intro Hk. unfold Qtrunc, Qdiv, Qinv, Qmult, inject_Z.
  destruct k as [|p|p]; [congruence| |]; cbn [Qnum Qden].
  - now rewrite Z.mul_1_r, Pos.mul_1_l.
  - rewrite Pos.mul_1_l.
    change (Z.neg 1) with (- (1))%Z.
    rewrite Z.mul_opp_r, Z.mul_1_r.
    change (Z.neg p) with (- Z.pos p)%Z.
    rewrite Z.quot_opp_l, Z.quot_opp_r by discriminate.
    reflexivity.
Qed.

Lemma inject_Z_eq0 (z : Z) : inject_Z z == 0 <-> z = 0%Z.
Proof.
  unfold Qeq, inject_Z; cbn. lia.
Qed.

(** On integers, [%] is the truncated remainder [Z.rem]. *)
Lemma rem_of_Z (b k : Z) :
  (k <> 0)%Z -> (of_Z b rem of_Z k)%js ~= inject_Z (Z.rem b k).
Proof.
  intro Hk. unfold Js.rem, of_Z, denotes.
  rewrite Qeq_bool_false by (rewrite inject_Z_eq0; exact Hk).
  rewrite Qred_correct, Qtrunc_inject_div by exact Hk.
  rewrite <- inject_Z_mult.
  unfold Qminus. rewrite <- inject_Z_opp, <- inject_Z_plus.
  rewrite inject_Z_injective.
  pose proof (Z.quot_rem' b k). lia.
Qed.

Lemma shouldHit_of_Z (b k : Z) :
  (k <> 0)%Z ->
  shouldHit (of_Z b) (Some (of_Z k)) = (Z.rem b k =? 0)%Z.
Proof.
  intro Hk. unfold shouldHit, nullish.
  pose proof (rem_of_Z b k Hk) as H.
  destruct (of_Z b rem of_Z k)%js as [|r]; [contradiction|].
  cbn in H. cbn [strict_eq].
  destruct (Z.eqb_spec (Z.rem b k) 0) as [E|E].
  - apply Qeq_bool_iff. rewrite H, E. reflexivity.
  - apply Qeq_bool_false. rewrite H. change 0 with (inject_Z 0).
    rewrite inject_Z_injective. exact E.
Qed.

Lemma clamp_below (t lo hi : Q) : lo <= hi -> t < lo -> clamp (Fin t) lo hi = Fin lo.
Proof.
  intros H L. unfold clamp, Math.min, Math.max.
  destruct (Qle_bool hi t) eqn:E1.
  - apply Qle_bool_iff in E1. lra.
  - destruct (Qle_bool lo t) eqn:E2; [|reflexivity].
    apply Qle_bool_iff in E2. lra.
Qed.

Lemma clamp_above (t lo hi : Q) : lo <= hi -> hi < t -> clamp (Fin t) lo hi = Fin hi.
Proof.
  intros H L. unfold clamp, Math.min, Math.max.
  destruct (Qle_bool hi t) eqn:E1.
  - destruct (Qle_bool lo hi) eqn:E2; [reflexivity|].
    apply Qle_bool_false in E2. lra.
  - apply Qle_bool_false in E1. lra.
Qed.

Lemma clamp_inside (t lo hi : Q) :
  lo <= t -> t <= hi -> exists c, clamp (Fin t) lo hi = Fin c /\ c == t.
Proof.
  intros L U. unfold clamp, Math.min, Math.max.
  destruct (Qle_bool hi t) eqn:E1.
  - apply Qle_bool_iff in E1.
    destruct (Qle_bool lo hi) eqn:E2.
    + exists hi. split; [reflexivity|lra].
    + apply Qle_bool_false in E2. lra.
  - destruct (Qle_bool lo t) eqn:E2.
    + exists t. split; [reflexivity|lra].
    + apply Qle_bool_false in E2. lra.
Qed.

(** A clamped finite number is finite and within the bounds. *)
Lemma clamp_range (t lo hi : Q) :
  lo <= hi -> exists c, clamp (Fin t) lo hi = Fin c /\ lo <= c <= hi.
Proof.
  intro H.
  destruct (Qlt_le_dec t lo) as [L|L].
  - exists lo. split; [now apply clamp_below|lra].
  - destruct (Qlt_le_dec hi t) as [U|U].
    + exists hi. split; [now apply clamp_above|lra].
    + destruct (clamp_inside t lo hi L U) as (c & E & Hc).
      exists c. split; [exact E|lra].
Qed.

(** [NaN] goes through [clamp] unclamped. *)
Lemma clamp_NaN (lo hi : number) : clamp NaN lo hi = NaN.
Proof.
  unfold clamp, Math.min, Math.max. destruct hi, lo; reflexivity.
Qed.

End NumberFacts.

(* ================================================================== *)
(** * stop and play *)
(* ================================================================== *)

Lemma stop_returns (w : World) : outcome stop w = Normal tt.
Proof.
  destruct w as [s r e]. destruct r as [cx bf [src|] nb [t|] bi];
    try destruct src as [i b [|]]; reflexivity.
Qed.

Lemma stop_leaves_idle (w : World) : idle (exec stop w).
Proof.
  destruct w as [s r e]. destruct r as [cx bf [src|] nb [t|] bi];
    try destruct src as [i b [|]]; repeat split.
Qed.

Lemma stop_when_idle (w : World) : idle w -> stop w = (Normal tt, w).
Proof.
  destruct w as [s r e]. destruct s, r. unfold idle. cbn.
  intros (-> & -> & ->). reflexivity.
Qed.

Lemma clearScheduler_returns (w : World) : outcome clearScheduler w = Normal tt.
Proof.
  unfold outcome, clearScheduler, bind, gets.
  destruct (schedulerTimerRef (refs w)); reflexivity.
Qed.

Lemma clearScheduler_when_idle (w : World) :
  schedulerTimerRef (refs w) = None -> clearScheduler w = (Normal tt, w).
Proof.
  intro H. unfold clearScheduler, bind, gets. rewrite H. reflexivity.
Qed.

(** C8.  [stop()] never throws, whatever the state; a second [stop()] right
    after a first one, and a [stop()] when nothing is running, return
    normally and leave the whole world as it was: no state changes, no
    call to Web Audio or the timer API is made, nothing is added to the
    trace.  The same holds for [clearScheduler()] alone. *)
Theorem stop_idempotent_total (w : World) :
  outcome stop w = Normal tt /\
  stop (exec stop w) = (Normal tt, exec stop w) /\
  (idle w -> stop w = (Normal tt, w)) /\
  outcome clearScheduler w = Normal tt /\
  clearScheduler (exec clearScheduler w) = (Normal tt, exec clearScheduler w).
Proof.
  split; [apply stop_returns|].
  split; [apply stop_when_idle, stop_leaves_idle|].
  split; [apply stop_when_idle|].
  split; [apply clearScheduler_returns|].
  apply clearScheduler_when_idle.
  unfold exec, clearScheduler, bind, gets.
  destruct (schedulerTimerRef (refs w)) eqn:E; cbn; [reflexivity|exact E].
Qed.

Lemma stop_idempotent_total_witness :
  idle mounted /\ stop mounted = (Normal tt, mounted).
Proof.
  split; [repeat split|].
  destruct (stop_idempotent_total mounted) as (_ & _ & H & _).
  apply H. repeat split.
Defined.

(** C9, as stated, fails on the freshly mounted component (no file picked):
    [play()] returns normally and nothing at all is reported. *)
Lemma play_without_media_reports_nothing :
  audioBufferRef (refs mounted) = None /\
  ~ play_reports_missing_media mounted.
Proof.
  split; [reflexivity|].
  intros [[e H]|[msg H]].
  - discriminate H.
  - exact H.
Qed.

(** C9 amended.  Without a decoded buffer (neither passed nor in
    [audioBufferRef]), [play] returns at its guard [if (!buf) return;]:
    normally, with no error and no message, and the world is untouched, so
    playback does not start ([sourceRef], [isPlaying] unchanged, no Web
    Audio call) and the scheduler is not armed (no timer created). *)
Theorem play_without_media_is_noop (w : World) :
  audioBufferRef (refs w) = None -> play None w = (Normal tt, w).
Proof.
  intro H. unfold play, bind, gets. rewrite H. reflexivity.
Qed.

Lemma play_without_media_is_noop_witness :
  audioBufferRef (refs mounted) = None /\ play None mounted = (Normal tt, mounted).
Proof.
  split; [reflexivity|].
  apply (play_without_media_is_noop mounted). reflexivity.
Defined.

(* ================================================================== *)
(** * What scheduleBeats arms *)
(* ================================================================== *)

Lemma lookup_id_head {A : Type} (id : positive) (a : A) (l : list (positive * A)) :
  lookup_id id ((id, a) :: l) = Some a.
Proof.
  cbn. now rewrite Pos.eqb_refl.
Qed.

(** The world [scheduleBeats] leaves: the next beat is due at the present
    clock reading plus [offsetMs], the previous interval (if any) is
    cleared, and a fresh interval carries [interval] and [swingAmt]. *)
Lemma scheduleBeats_spec (tempo : number) (w : World) :
  let w' := exec (scheduleBeats tempo) w in
  let q := if String.eqb (quantize (st w)) "1/1" then Fin 1
           else if String.eqb (quantize (st w)) "1/2" then Fin 0.5 else Fin 0.25 in
  let c := {| interval := (Fin 60000 / clamp tempo 40 240 * q)%js;
              swingAmt := (swing (st w) / Fin 100)%js |} in
  outcome (scheduleBeats tempo) w = Normal tt /\
  st w' = st w /\
  refs w' = set_schedulerTimerRef (Some (nextId (env w)))
              (set_nextBeatTimeRef (Fin (clock (env w)) + offsetMs (st w))%js (refs w)) /\
  intervals (env w') =
    (nextId (env w), c) ::
      match schedulerTimerRef (refs w) with
      | Some old => remove_id old (intervals (env w))
      | None => intervals (env w)
      end /\
  clock (env w') = clock (env w) /\
  timeouts (env w') = timeouts (env w) /\
  armed w' = Some c.
Proof.
  destruct w as [s r e]. destruct r as [cx bf src nb [t|] bi]; cbn;
    rewrite Pos.eqb_refl; repeat split.
Qed.

(* ================================================================== *)
(** * One beat, one poll *)
(* ================================================================== *)

(** Every effect of one [triggerBeat()]. *)
Lemma triggerBeat_spec (w : World) :
  let due := Qred (clock (env w) + 100) in
  triggerBeat w =
    (Normal tt,
     {| st := set_activeArm (Z.rem (activeArm (st w) + 1) 8)
                (set_hitPulse true (set_beatCount (beatCount (st w) + 1) (st w)));
        refs := set_beatIndexRef (beatIndexRef (refs w) + 1) (refs w);
        env := set_trace
                 (trace (env w) ++
                    BeatCounted (beatCount (st w) + 1) ::
                    (if hitPulse (st w) then [] else [PulseChanged (clock (env w)) true]) ++
                    [TimeoutSet (nextId (env w)) due])
                 (set_nextId (Pos.succ (nextId (env w)))
                    (set_timeouts (timeouts (env w) ++ [(nextId (env w), due)]) (env w))) |}).
Proof.
  destruct w as [s r e]. destruct s as [ip b mb off qz sw bc [|] aa], r, e;
    unfold triggerBeat, setBeatCount, setHitPulse, window_setTimeout, setActiveArm,
      emit, when, bind, gets, modify, ret, on_st, on_refs, on_env; cbn;
    rewrite <- ?app_assoc; reflexivity.
Qed.

(** A poll that comes before the scheduled time does nothing at all. *)
Lemma schedulerCallback_early (c : Closure) (w : World) :
  (Fin (clock (env w)) >= nextBeatTimeRef (refs w))%js = false ->
  schedulerCallback c w = (Normal tt, w).
Proof.
  intro H. unfold schedulerCallback, bind, performance_now, gets.
  rewrite H. reflexivity.
Qed.

(** A poll at or after the scheduled time fires one beat and moves the
    scheduled time on from its previous value. *)
Lemma schedulerCallback_due (c : Closure) (w : World) :
  (Fin (clock (env w)) >= nextBeatTimeRef (refs w))%js = true ->
  let w1 := exec triggerBeat w in
  let index := (beatIndexRef (refs w) + 1)%Z in
  schedulerCallback c w =
    (Normal tt,
     on_refs (set_nextBeatTimeRef
                (nextBeatTimeRef (refs w) + (interval c + swingDelta c index))%js) w1).
Proof.
  intro H. unfold schedulerCallback, bind, performance_now, gets.
  rewrite H. unfold exec. rewrite triggerBeat_spec. reflexivity.
Qed.

(* ================================================================== *)
(** * Sequencing, and what the passage of time leaves alone *)
(* ================================================================== *)

Lemma quiet_refl (w : World) : quiet w w.
Proof. repeat split. Qed.

Lemma quiet_trans (w1 w2 w3 : World) : quiet w1 w2 -> quiet w2 w3 -> quiet w1 w3.
Proof.
  unfold quiet. intros (A1 & A2 & A3 & A4 & A5) (B1 & B2 & B3 & B4 & B5).
  repeat split; congruence.
Qed.

Lemma beats_app (l1 l2 : list event) : beats (l1 ++ l2) = beats l1 ++ beats l2.
Proof. apply flat_map_app. Qed.

Lemma setHitPulse_quiet (v : bool) (w : World) :
  exists w', setHitPulse v w = (Normal tt, w') /\ quiet w w'.
Proof.
  destruct w as [s r e]. destruct s as [ip b mb off qz sw bc hp aa], r, e.
  unfold setHitPulse, emit, when, bind, gets, modify, ret, on_st, on_env, quiet; cbn.
  destruct (Bool.eqb hp v); cbn; eexists; (split; [reflexivity|]); cbn;
    rewrite ?beats_app, ?app_nil_r; repeat split.
Qed.

Lemma runTimeouts_quiet (t : Q) (pending : list (positive * Q)) (w : World) :
  exists w', runTimeouts t pending w = (Normal tt, w') /\ quiet w w'.
Proof.
  revert w. induction pending as [|[k due] rest IH]; intro w.
  - exists w. split; [reflexivity|apply quiet_refl].
  - cbn [runTimeouts]. destruct (Qle_bool due t); [|apply IH].
    unfold bind at 1. unfold modify at 1.
    set (w1 := on_env _ w).
    destruct (setHitPulse_quiet false w1) as (w2 & E2 & Q2).
    unfold bind at 1. rewrite E2.
    destruct (IH w2) as (w3 & E3 & Q3).
    exists w3. split; [exact E3|].
    apply quiet_trans with (2 := Q3). apply quiet_trans with (2 := Q2).
    repeat split.
Qed.

Lemma elapse_quiet (t : Q) (w : World) :
  exists w', elapse t w = (Normal tt, w') /\ quiet w w' /\ clock (env w') = t.
Proof.
  unfold elapse. unfold bind at 1. unfold gets at 1.
  destruct (runTimeouts_quiet t (timeouts (env w)) w) as (w1 & E1 & Q1).
  unfold bind at 1. rewrite E1.
  eexists. split; [reflexivity|]. split; [|reflexivity].
  apply quiet_trans with (1 := Q1). repeat split.
Qed.

Lemma quiet_beatCount (w w' : World) : quiet w w' -> beatCount (st w') = beatCount (st w).
Proof.
  intros (_ & _ & _ & H & _).
  apply (f_equal beatCount) in H. exact H.
Qed.

(** What one poll does to a world in which the interval [id] is live with
    callback [c]: nothing but let time pass when it comes early, and exactly
    one beat when it comes at or after the scheduled time. *)
Lemma poll_step (id : positive) (c : Closure) (t : Q) (w : World) :
  lookup_id id (intervals (env w)) = Some c ->
  exists w',
    poll id t w = (Normal tt, w') /\
    lookup_id id (intervals (env w')) = Some c /\
    (((Fin t >= nextBeatTimeRef (refs w))%js = false /\ quiet w w')
     \/
     ((Fin t >= nextBeatTimeRef (refs w))%js = true /\
      beatIndexRef (refs w') = (beatIndexRef (refs w) + 1)%Z /\
      nextBeatTimeRef (refs w') =
        (nextBeatTimeRef (refs w)
         + (interval c + swingDelta c (beatIndexRef (refs w) + 1)))%js /\
      schedulerTimerRef (refs w') = schedulerTimerRef (refs w) /\
      beatCount (st w') = (beatCount (st w) + 1)%Z /\
      beats (trace (env w')) = beats (trace (env w)) ++ [(beatCount (st w) + 1)%Z])).
Proof.
  intro L. unfold poll.
  destruct (elapse_quiet t w) as (w1 & E1 & Q1 & C1).
  unfold bind at 1. rewrite E1.
  pose proof (quiet_beatCount _ _ Q1) as BC.
  destruct Q1 as (R1 & I1 & N1 & S1 & B1).
  unfold fire. unfold bind at 1. unfold gets at 1. rewrite I1, L.
  destruct (Fin (clock (env w1)) >= nextBeatTimeRef (refs w1))%js eqn:G.
  - rewrite (schedulerCallback_due c w1 G).
    eexists. split; [reflexivity|].
    unfold exec. rewrite triggerBeat_spec.
    rewrite C1, R1 in G.
    split; [cbn; now rewrite I1|].
    right. split; [exact G|].
    cbn. rewrite R1, BC, !beats_app, B1. cbn.
    destruct (hitPulse (st w1)); cbn; repeat split.
  - rewrite (schedulerCallback_early c w1 G).
    exists w1. split; [reflexivity|].
    rewrite C1, R1 in G.
    split; [now rewrite I1|].
    left. split; [exact G|]. repeat split; assumption.
Qed.

Lemma polls_cons (id : positive) (t : Q) (ts : list Q) (w w' : World) :
  poll id t w = (Normal tt, w') ->
  polls id (t :: ts) w = polls id ts w'.
Proof.
  intro H. cbn [polls]. unfold bind. rewrite H. reflexivity.
Qed.

(* ================================================================== *)
(** * The schedule: planned times and beat counts over a run of polls *)
(* ================================================================== *)

Lemma upfrom_snoc (a : Z) (n : nat) :
  upfrom a (S n) = upfrom a n ++ [(a + Z.of_nat n)%Z].
Proof.
  revert a. induction n as [|n IH]; intro a.
  - cbn. now rewrite Z.add_0_r.
  - change (upfrom a (S (S n))) with (a :: upfrom (a + 1) (S n)).
    rewrite IH. cbn [upfrom app]. do 3 f_equal. lia.
Qed.

Lemma offBeats_S (b0 : Z) (n : nat) :
  offBeats b0 (S n) =
    (offBeats b0 n + (if Z.rem (b0 + Z.of_nat n + 1) 2 =? 1 then 1 else 0))%Z.
Proof.
  unfold offBeats. rewrite upfrom_snoc, filter_app, List.length_app. cbn [filter].
  replace (b0 + 1 + Z.of_nat n)%Z with (b0 + Z.of_nat n + 1)%Z by lia.
  destruct (Z.rem (b0 + Z.of_nat n + 1) 2 =? 1)%Z; cbn [List.length]; lia.
Qed.

Lemma add_denotes (x y : number) (p q : Q) :
  x ~= p -> y ~= q -> (x + y)%js ~= p + q.
Proof.
  destruct x as [|a], y as [|b]; unfold denotes; try contradiction.
  intros Hp Hq. unfold Js.add, lift2. now rewrite Qred_correct, Hp, Hq.
Qed.

Lemma mul_denotes (x y : number) (p q : Q) :
  x ~= p -> y ~= q -> (x * y)%js ~= p * q.
Proof.
  destruct x as [|a], y as [|b]; unfold denotes; try contradiction.
  intros Hp Hq. unfold Js.mul, lift2. now rewrite Qred_correct, Hp, Hq.
Qed.

Lemma div_denotes (x y : number) (p q : Q) :
  x ~= p -> y ~= q -> ~ q == 0 -> (x / y)%js ~= p / q.
Proof.
  destruct x as [|a], y as [|b]; unfold denotes; try contradiction.
  intros Hp Hq Hz. unfold Js.div.
  rewrite Qeq_bool_false by (now rewrite Hq).
  now rewrite Qred_correct, Hp, Hq.
Qed.

Lemma denotes_Fin (q : Q) : Fin q ~= q.
Proof. unfold denotes. reflexivity. Qed.

Lemma denotes_eq (x : number) (p q : Q) : x ~= p -> p == q -> x ~= q.
Proof.
  destruct x; unfold denotes; [tauto|]. intros H1 H2. now rewrite H1.
Qed.

Lemma swingDelta_denotes (c : Closure) (i sa : Q) (index : Z) :
  interval c ~= i -> swingAmt c ~= sa ->
  swingDelta c index ~=
    (if (Z.rem index 2 =? 1)%Z then i * sa * (1 # 2) else 0).
Proof.
  intros Hi Hs. unfold swingDelta.
  destruct (Z.rem index 2 =? 1)%Z.
  - apply denotes_eq with (p := i * sa * 0.5).
    + apply mul_denotes; [apply mul_denotes; assumption|apply denotes_Fin].
    + apply Qmult_comp; reflexivity.
  - apply denotes_Fin.
Qed.

Lemma planned_S (anchor i sa : Q) (b0 : Z) (n : nat) :
  planned anchor i sa b0 (S n) ==
    planned anchor i sa b0 n
    + (i + (if (Z.rem (b0 + Z.of_nat n + 1) 2 =? 1)%Z then i * sa * (1 # 2) else 0)).
Proof.
  unfold planned. rewrite offBeats_S, Nat2Z.inj_succ.
  unfold Z.succ. rewrite !inject_Z_plus.
  destruct (Z.rem (b0 + Z.of_nat n + 1) 2 =? 1)%Z; cbn [inject_Z]; ring.
Qed.

Section Run.

Variable id : positive.
Variable c : Closure.
Variables anchor i sa : Q.
Variable b0 : Z.
Hypothesis interval_c : interval c ~= i.
Hypothesis swingAmt_c : swingAmt c ~= sa.

(** The invariant of the poll loop: after [n] beats the counter stands at
    [b0 + n] and the next beat is planned at [planned ... n], however long
    the polls took to notice the beats before. *)
Lemma polls_invariant (ts : list Q) :
  forall (w : World) (n : nat),
    lookup_id id (intervals (env w)) = Some c ->
    beatIndexRef (refs w) = (b0 + Z.of_nat n)%Z ->
    nextBeatTimeRef (refs w) ~= planned anchor i sa b0 n ->
    exists (w' : World) (k : nat),
      polls id ts w = (Normal tt, w') /\
      lookup_id id (intervals (env w')) = Some c /\
      (k <= List.length ts)%nat /\
      beatIndexRef (refs w') = (b0 + Z.of_nat (n + k))%Z /\
      nextBeatTimeRef (refs w') ~= planned anchor i sa b0 (n + k) /\
      beatCount (st w') = (beatCount (st w) + Z.of_nat k)%Z /\
      beats (trace (env w')) =
        beats (trace (env w)) ++ upfrom (beatCount (st w) + 1) k.
Proof.
  induction ts as [|t ts IH]; intros w n L B P.
  - exists w, 0%nat. rewrite Nat.add_0_r, Z.add_0_r, app_nil_r.
    repeat split; auto.
  - destruct (poll_step id c t w L) as (w1 & E1 & L1 & [[G Q1]|(G & B1 & P1 & _ & C1 & T1)]).
    + pose proof (quiet_beatCount _ _ Q1) as BC.
      destruct Q1 as (R1 & _ & _ & _ & T1).
      destruct (IH w1 n L1) as (w' & k & E & L' & K & B' & P' & C' & T');
        [now rewrite R1|now rewrite R1|].
      exists w', k. rewrite (polls_cons id t ts w w1 E1), BC, T1 in *.
      repeat split; auto. cbn [List.length]. lia.
    + destruct (IH w1 (S n) L1) as (w' & k & E & L' & K & B' & P' & C' & T').
      * rewrite B1, B. lia.
      * rewrite P1. apply denotes_eq with (2 := Qeq_sym _ _ (planned_S anchor i sa b0 n)).
        apply add_denotes; [exact P|].
        apply add_denotes; [exact interval_c|].
        rewrite B. now apply swingDelta_denotes.
      * exists w', (S k). rewrite (polls_cons id t ts w w1 E1).
        replace (n + S k)%nat with (S n + k)%nat by lia.
        repeat split; auto.
        -- cbn [List.length]. lia.
        -- rewrite C', C1. lia.
        -- rewrite T', T1, <- app_assoc. cbn [upfrom app]. rewrite C1. reflexivity.
Qed.

End Run.

(** Counting alone needs nothing of the numbers involved. *)
Lemma polls_count (id : positive) (c : Closure) (ts : list Q) :
  forall w : World,
    lookup_id id (intervals (env w)) = Some c ->
    exists (w' : World) (k : nat),
      polls id ts w = (Normal tt, w') /\
      (k <= List.length ts)%nat /\
      beatIndexRef (refs w') = (beatIndexRef (refs w) + Z.of_nat k)%Z /\
      beatCount (st w') = (beatCount (st w) + Z.of_nat k)%Z /\
      beats (trace (env w')) =
        beats (trace (env w)) ++ upfrom (beatCount (st w) + 1) k.
Proof.
  induction ts as [|t ts IH]; intros w L.
  - exists w, 0%nat. rewrite !Z.add_0_r, app_nil_r. repeat split; auto.
  - destruct (poll_step id c t w L) as (w1 & E1 & L1 & [[G Q1]|(G & B1 & P1 & _ & C1 & T1)]);
      destruct (IH w1 L1) as (w' & k & E & K & B' & C' & T');
      rewrite (polls_cons id t ts w w1 E1).
    + pose proof (quiet_beatCount _ _ Q1) as BC.
      destruct Q1 as (R1 & _ & _ & _ & T1).
      exists w', k. rewrite R1, BC, T1 in *.
      repeat split; auto. cbn [List.length]. lia.
    + exists w', (S k). repeat split; auto.
      * cbn [List.length]. lia.
      * rewrite B', B1. lia.
      * rewrite C', C1. lia.
      * rewrite T', T1, <- app_assoc, C1. reflexivity.
Qed.

Lemma quantize_factor (qz : string) :
  exists qf : Q,
    (if String.eqb qz "1/1" then Fin 1
     else if String.eqb qz "1/2" then Fin 0.5 else Fin 0.25) = Fin qf /\
    0 < qf /\
    (qz = "1/1"%string -> qf = 1) /\
    (qz = "1/2"%string -> qf = 0.5) /\
    (qz = "1/4"%string -> qf = 0.25).
Proof.
  destruct (String.eqb_spec qz "1/1") as [E1|E1];
    [|destruct (String.eqb_spec qz "1/2") as [E2|E2]].
  - exists 1. subst qz. repeat split; try reflexivity; discriminate.
  - exists 0.5. subst qz. repeat split; try reflexivity; discriminate.
  - exists 0.25. repeat split; try reflexivity; try contradiction.
Qed.

(** The interval [scheduleBeats] computes from a finite tempo. *)
Lemma interval_value (t qf : Q) :
  0 < qf ->
  exists cl : Q,
    clamp (Fin t) 40 240 = Fin cl /\ 40 <= cl <= 240 /\
    (Fin 60000 / clamp (Fin t) 40 240 * Fin qf)%js ~= 60000 / cl * qf /\
    0 < 60000 / cl * qf.
Proof.
  intro Hq.
  destruct (clamp_range t 40 240) as (cl & E & R); [lra|].
  exists cl. rewrite E. split; [reflexivity|]. split; [exact R|].
  split.
  - apply mul_denotes; [|apply denotes_Fin].
    apply div_denotes; [apply denotes_Fin|apply denotes_Fin|lra].
  - apply Qmult_lt_0_compat; [|exact Hq].
    apply Qlt_shift_div_l; lra.
Qed.

(** The schedule in exact arithmetic.  Let [scheduleBeats] arm the scheduler
    at clock reading [clock] with a finite tempo, offset [o] and swing [s];
    the anchor is [clock + o].  (1) Whatever world the interval later fires
    in and whatever the clock reads then, a poll either comes early and
    leaves both the counter and the scheduled time alone, or fires one beat
    and adds [interval + swingDelta] to the previous scheduled time; the
    clock reading never enters the new value.  (2) Were the additions
    exact, then over any sequence of poll times, after [n] beats the next
    beat would be planned at [anchor + n * interval] plus
    [interval * (s/100) * 0.5] for each fired index the callback found odd.
    The program's additions round: what holds of them is in [Binary64]
    below. *)
Lemma exact_schedule_closed_form (w : World) (t o s : Q) (ts : list Q) :
  offsetMs (st w) = Fin o ->
  swing (st w) = Fin s ->
  let w1 := exec (scheduleBeats (Fin t)) w in
  let anchor := clock (env w) + o in
  let b0 := beatIndexRef (refs w) in
  exists (id : positive) (c : Closure) (i : Q),
    schedulerTimerRef (refs w1) = Some id /\
    armed w1 = Some c /\
    interval c ~= i /\
    nextBeatTimeRef (refs w1) ~= anchor /\
    (forall (w' : World) (now : Q),
        lookup_id id (intervals (env w')) = Some c ->
        let w'' := exec (poll id now) w' in
        ((Fin now >= nextBeatTimeRef (refs w'))%js = false /\
         beatIndexRef (refs w'') = beatIndexRef (refs w') /\
         nextBeatTimeRef (refs w'') = nextBeatTimeRef (refs w'))
        \/
        ((Fin now >= nextBeatTimeRef (refs w'))%js = true /\
         beatIndexRef (refs w'') = (beatIndexRef (refs w') + 1)%Z /\
         nextBeatTimeRef (refs w'') =
           (nextBeatTimeRef (refs w')
            + (interval c + swingDelta c (beatIndexRef (refs w''))))%js)) /\
    exists n : nat,
      let w2 := exec (polls id ts) w1 in
      outcome (polls id ts) w1 = Normal tt /\
      (n <= List.length ts)%nat /\
      beatIndexRef (refs w2) = (b0 + Z.of_nat n)%Z /\
      nextBeatTimeRef (refs w2) ~=
        anchor + inject_Z (Z.of_nat n) * i
        + inject_Z (offBeats b0 n) * (i * (s / 100) * (1 # 2)).
Proof.
  intros Ho Hs w1 anchor b0.
  destruct (scheduleBeats_spec (Fin t) w) as (_ & S1 & R1 & I1 & _ & _ & A1).
  fold w1 in S1, R1, I1, A1.
  destruct (quantize_factor (quantize (st w))) as (qf & Eq & Hqf & _).
  destruct (interval_value t qf Hqf) as (cl & Ecl & Rcl & Hi & _).
  rewrite Eq in A1, I1.
  set (c := {| interval := (Fin 60000 / clamp (Fin t) 40 240 * Fin qf)%js;
               swingAmt := (swing (st w) / Fin 100)%js |}) in *.
  exists (nextId (env w)), c, (60000 / cl * qf).
  assert (Hsa : swingAmt c ~= s / 100).
  { cbn [c swingAmt]. rewrite Hs.
    apply div_denotes; [apply denotes_Fin|apply denotes_Fin|lra]. }
  assert (Hn : nextBeatTimeRef (refs w1) ~= anchor).
  { rewrite R1. cbn. rewrite Ho. apply add_denotes; apply denotes_Fin. }
  assert (L1 : lookup_id (nextId (env w)) (intervals (env w1)) = Some c).
  { rewrite I1. apply lookup_id_head. }
  split; [rewrite R1; reflexivity|].
  split; [exact A1|]. split; [exact Hi|]. split; [exact Hn|].
  split.
  - intros w' now L w''.
    destruct (poll_step _ _ now w' L) as (x & E & _ & [[G Q1]|(G & B & P & _)]);
      unfold w'', exec; rewrite E; cbn [snd].
    + left. destruct Q1 as (R & _). rewrite R. repeat split. exact G.
    + right. rewrite B. repeat split; assumption.
  - destruct (polls_invariant (nextId (env w)) c anchor (60000 / cl * qf) (s / 100) b0
                Hi Hsa ts w1 0%nat L1) as (w2 & k & E & _ & K & B & P & _).
    + rewrite R1. cbn. unfold b0. lia.
    + apply denotes_eq with (1 := Hn). unfold planned, offBeats. cbn. ring.
    + exists k. unfold outcome, exec. rewrite E. cbn [fst snd].
      repeat split; assumption.
Qed.

(** The run of the end-to-end example: 120 bpm, quantize 1/1, no swing, no
    offset; polls at 0, 10, 500, 510, 990, 1000 and a late one at 1600.
    Four beats are counted, and the fifth is planned at 2000, not at 2100. *)
Example run_120bpm :
  let w := exec (play None;; polls 1 [0; 10; 500; 510; 990; 1000; 1600]) loaded in
  beatCount (st w) = 4%Z /\
  beatIndexRef (refs w) = 4%Z /\
  nextBeatTimeRef (refs w) = Fin 2000 /\
  beats (trace (env w)) = [1; 2; 3; 4]%Z.
Proof. vm_compute. repeat split. Qed.

(** With 50% swing every beat that follows an odd count comes a quarter
    of an interval later: the beats are planned at 0, 625, 1125, 1750, 2250
    and the sixth at 2875. *)
Example run_swing :
  let w := exec (setSwing 50;; play None;; polls 1 [0; 630; 1130; 1760; 2250]) loaded in
  beats (trace (env w)) = [1; 2; 3; 4; 5]%Z /\
  nextBeatTimeRef (refs w) = Fin 2875.
Proof. vm_compute. repeat split. Qed.

(** C4, as stated, fails: on a freshly mounted component with a file
    loaded, the first beat fired after [play()] carries the index 1, in the
    ref the scheduler reads as well as in the count the hit flags are
    computed from (so the bass, which plays every second beat, sits the
    first beat out). *)
Lemma first_beat_has_index_one :
  let w := exec (play None;; poll 1 0) loaded in
  beats (trace (env w)) = [1%Z] /\
  hd_error (beats (trace (env w))) <> Some 0%Z /\
  beatIndexRef (refs w) = 1%Z /\
  beatCount (st w) = 1%Z /\
  hitDrums w = true /\
  hitBass w = false.
Proof.
  vm_compute. repeat split. discriminate.
Qed.

(** C4 amended.  The beat index is the count of beats fired since the
    component was mounted: [triggerBeat] increments the ref and the state
    before anything reads them, and neither is ever reset.  Over any run of
    polls after [scheduleBeats], if the count stood at [c0] the beats are
    delivered with the indices [c0+1, c0+2, ..., c0+n], in this order, one
    per firing; the ref advances by the same [n].  With [c0 = 0] (fresh
    mount) the first beat has index 1. *)
Theorem beat_indices_count_up (w : World) (tempo : number) (ts : list Q) :
  let w1 := exec (scheduleBeats tempo) w in
  exists (id : positive) (n : nat),
    schedulerTimerRef (refs w1) = Some id /\
    let w2 := exec (polls id ts) w1 in
    outcome (polls id ts) w1 = Normal tt /\
    (n <= List.length ts)%nat /\
    beats (trace (env w2)) =
      beats (trace (env w)) ++ upfrom (beatCount (st w) + 1) n /\
    beatCount (st w2) = (beatCount (st w) + Z.of_nat n)%Z /\
    beatIndexRef (refs w2) = (beatIndexRef (refs w) + Z.of_nat n)%Z.
Proof.
  intro w1.
  destruct (scheduleBeats_spec tempo w) as (_ & S1 & R1 & I1 & _ & _ & _).
  fold w1 in S1, R1, I1.
  assert (T1 : beats (trace (env w1)) = beats (trace (env w))).
  { unfold w1. destruct w as [s r e]. destruct r as [cx bf src nb [k|] bi];
      unfold scheduleBeats, clearScheduler, window_clearInterval, window_setInterval,
        performance_now, emit, exec, bind, gets, modify, ret, on_refs, on_env; cbn;
      rewrite !beats_app; cbn; now rewrite ?app_nil_r. }
  eassert (L1 : lookup_id (nextId (env w)) (intervals (env w1)) = Some _).
  { rewrite I1. apply lookup_id_head. }
  destruct (polls_count _ _ ts w1 L1) as (w2 & n & E & K & B & C & T).
  exists (nextId (env w)), n.
  split; [rewrite R1; reflexivity|].
  unfold outcome, exec. rewrite E. cbn [fst snd].
  rewrite T, C, B, T1, S1, R1. repeat split. exact K.
Qed.

Lemma Zrem2_odd (x : Z) : (0 <= x)%Z -> (Z.rem x 2 =? 1)%Z = Z.odd x.
Proof.
  intro H. rewrite Z.rem_mod_nonneg by lia.
  rewrite Zodd_mod. reflexivity.
Qed.

(** C5.  Swing.  The callback [scheduleBeats] arms carries
    [swingAmt = swing / 100].  When it fires a beat, the index it reads
    (the counter, just incremented) decides: on an odd index the next
    scheduled time is the previous one plus [interval] plus
    [interval * swingAmt * 0.5]; on an even index it is the previous one
    plus [interval] alone.  With the slider's [swing >= 0] the swing term is
    never negative: the next beat is never planned earlier than one
    [interval] after the previous target. *)
Theorem swing_on_odd_index_only (w : World) (t s : Q) :
  swing (st w) = Fin s ->
  0 <= s ->
  let w1 := exec (scheduleBeats (Fin t)) w in
  exists (c : Closure) (i : Q),
    armed w1 = Some c /\
    interval c ~= i /\ 0 < i /\
    swingAmt c = (Fin s / Fin 100)%js /\
    swingAmt c ~= s / 100 /\
    forall (w' : World) (next : Q),
      (0 <= beatIndexRef (refs w'))%Z ->
      nextBeatTimeRef (refs w') ~= next ->
      (Fin (clock (env w')) >= nextBeatTimeRef (refs w'))%js = true ->
      let w'' := exec (schedulerCallback c) w' in
      let index := beatIndexRef (refs w'') in
      index = (beatIndexRef (refs w') + 1)%Z /\
      (Z.odd index = true ->
         nextBeatTimeRef (refs w'') ~= next + (i + i * (s / 100) * (1 # 2))) /\
      (Z.even index = true ->
         nextBeatTimeRef (refs w'') ~= next + i) /\
      exists next' : Q, nextBeatTimeRef (refs w'') ~= next' /\ next + i <= next'.
Proof.
  intros Hs Hs0 w1.
  destruct (scheduleBeats_spec (Fin t) w) as (_ & _ & _ & _ & _ & _ & A1).
  fold w1 in A1.
  destruct (quantize_factor (quantize (st w))) as (qf & Eq & Hqf & _).
  destruct (interval_value t qf Hqf) as (cl & Ecl & Rcl & Hi & Hpos).
  rewrite Eq in A1.
  set (c := {| interval := (Fin 60000 / clamp (Fin t) 40 240 * Fin qf)%js;
               swingAmt := (swing (st w) / Fin 100)%js |}) in *.
  set (i := 60000 / cl * qf) in *.
  assert (Hsa : swingAmt c ~= s / 100).
  { cbn [c swingAmt]. rewrite Hs.
    apply div_denotes; [apply denotes_Fin|apply denotes_Fin|lra]. }
  exists c, i.
  split; [exact A1|]. split; [exact Hi|]. split; [exact Hpos|].
  split; [cbn [c swingAmt]; now rewrite Hs|]. split; [exact Hsa|].
  intros w' next Hb Hn G w'' index.
  assert (E : refs w'' =
              set_nextBeatTimeRef
                (nextBeatTimeRef (refs w')
                 + (interval c + swingDelta c (beatIndexRef (refs w') + 1)))%js
                (set_beatIndexRef (beatIndexRef (refs w') + 1) (refs w'))).
  { unfold w'', exec. rewrite (schedulerCallback_due c w' G).
    unfold exec. rewrite triggerBeat_spec. reflexivity. }
  assert (Ei : index = (beatIndexRef (refs w') + 1)%Z).
  { unfold index. rewrite E. reflexivity. }
  assert (Et : nextBeatTimeRef (refs w'') ~=
               next + (i + (if Z.odd index then i * (s / 100) * (1 # 2) else 0))).
  { rewrite E. cbn [set_nextBeatTimeRef nextBeatTimeRef].
    apply add_denotes; [exact Hn|]. apply add_denotes; [exact Hi|].
    rewrite Ei, <- Zrem2_odd by lia.
    now apply swingDelta_denotes. }
  split; [exact Ei|].
  split; [intro O; now rewrite O in Et|].
  split.
  - intro Ev. rewrite <- Z.negb_odd in Ev.
    destruct (Z.odd index); [discriminate|].
    apply denotes_eq with (1 := Et). ring.
  - eexists. split; [exact Et|].
    destruct (Z.odd index); [|lra].
    assert (0 <= i * (s / 100) * (1 # 2)); [|lra].
    apply Qmult_le_0_compat; [|lra].
    apply Qmult_le_0_compat; [lra|].
    apply Qle_shift_div_l; lra.
Qed.

Lemma swing_on_odd_index_only_witness :
  let w := exec (setSwing 50) loaded in
  swing (st w) = Fin 50 /\
  0 <= 50 /\
  exists (c : Closure) (i : Q),
    armed (exec (scheduleBeats (Fin 120)) w) = Some c /\
    interval c ~= i /\ 0 < i /\
    swingAmt c ~= 50 / 100.
Proof.
  split; [reflexivity|]. split; [lra|].
  destruct (swing_on_odd_index_only (exec (setSwing 50) loaded) 120 50)
    as (c & i & A & I & P & _ & S & _); [reflexivity|lra|].
  exists c, i. repeat split; assumption.
Defined.

(* ================================================================== *)
(** * The schedule in binary64 arithmetic *)
(* ================================================================== *)

(** JavaScript's numbers are IEEE 754 binary64 values and every operation
    rounds to nearest, ties to even.  The model above computes in exact
    rationals; where a property depends on the rounding of the scheduler's
    additions, the arithmetic of [scheduleBeats] and of its callback is
    taken here as the code performs it, on Rocq's primitive binary64
    floats. *)
Module Binary64.
Import Floats.
Local Open Scope float_scope.

(** [a >= b]: false as soon as one side is [NaN]. *)
Definition ge (a b : float) : bool := (b <=? a).

Definition is_negative_zero (x : float) : bool :=
  match classify x with
  | NZero => true
  | _ => false
  end.

(** [Math.max(a, b)] and [Math.min(a, b)]: [NaN] if either argument is, and
    [-0] counts as smaller than [+0]. *)
Definition Math_max (a b : float) : float :=
  if is_nan a || is_nan b then nan
  else if a <? b then b
  else if b <? a then a
  else if is_negative_zero a then b else a.

Definition Math_min (a b : float) : float :=
  if is_nan a || is_nan b then nan
  else if a <? b then a
  else if b <? a then b
  else if is_negative_zero a then a else b.

(** [const clamp = (n, min, max) => Math.max(min, Math.min(max, n));] *)
Definition clamp (n min max : float) : float :=
  Math_max min (Math_min max n).

(** What the callback of [scheduleBeats] closes over, and the two refs it
    reads and writes.  The beat counter is an integer: [+= 1] is exact on
    binary64 up to 2^53. *)
Record Closure : Set := {
  interval : float;
  swingAmt : float
}.

Record Refs : Set := {
  beatIndexRef : Z;
  nextBeatTimeRef : float
}.

(** The arithmetic of [scheduleBeats] (lines 380-385), for the tempo it is
    called with, the state it reads and the clock reading [now] of
    [performance.now()]:
    [const beatMs = 60000 / clamp(tempo, 40, 240);
     const q = quantize === "1/1" ? 1 : quantize === "1/2" ? 0.5 : 0.25;
     const interval = beatMs * q; const swingAmt = swing / 100;
     nextBeatTimeRef.current = performance.now() + offsetMs;] *)
Definition scheduleBeats (tempo : float) (quantize : string) (swing offsetMs : float)
    (now : float) (r : Refs) : Closure * Refs :=
  let beatMs := 60000 / clamp tempo 40 240 in
  let q := if String.eqb quantize "1/1" then 1
           else if String.eqb quantize "1/2" then 0.5 else 0.25 in
  let interval := beatMs * q in
  let swingAmt := swing / 100 in
  ({| interval := interval; swingAmt := swingAmt |},
   {| beatIndexRef := beatIndexRef r; nextBeatTimeRef := now + offsetMs |}).

(** [const isOffBeat = (beatIndexRef.current % 2) === 1;
     const swingDelta = isOffBeat ? interval * swingAmt * 0.5 : 0;] *)
Definition swingDelta (c : Closure) (index : Z) : float :=
  let isOffBeat := (Z.rem index 2 =? 1)%Z in
  if isOffBeat then interval c * swingAmt c * 0.5 else 0.

(** The body of the callback's [if]: [triggerBeat()] counts the beat
    ([beatIndexRef.current += 1]; its other effects touch neither ref),
    then [nextBeatTimeRef.current += interval + swingDelta]. *)
Definition fireBeat (c : Closure) (r : Refs) : Refs :=
  let index := (beatIndexRef r + 1)%Z in
  {| beatIndexRef := index;
     nextBeatTimeRef := nextBeatTimeRef r + (interval c + swingDelta c index) |}.

(** The callback (lines 386-393), run at the clock reading [now]:
    [const now = performance.now();
     if (now >= nextBeatTimeRef.current) { triggerBeat(); ...;
       nextBeatTimeRef.current += interval + swingDelta; }] *)
Definition schedulerCallback (c : Closure) (now : float) (r : Refs) : Refs :=
  if ge now (nextBeatTimeRef r) then fireBeat c r else r.

(** The interval firing at the clock readings [ts], one after the other. *)
Definition polls (c : Closure) (ts : list float) (r : Refs) : Refs :=
  fold_left (fun r now => schedulerCallback c now r) ts r.

(** The time planned for the next beat once [n] beats have fired, from the
    counter [index] and the planned time [next]: one rounded addition per
    beat. *)
Fixpoint planned (c : Closure) (index : Z) (next : float) (n : nat) : float :=
  match n with
  | O => next
  | S n => planned c (index + 1) (next + (interval c + swingDelta c (index + 1))) n
  end.

(** The real number a finite binary64 value stands for. *)
Definition value (x : float) : option Q :=
  match Prim2SF x with
  | S754_zero _ => Some 0%Q
  | S754_finite s m e =>
      Some ((if s then -1 else 1) * (inject_Z (Zpos m) * 2 ^ e))%Q
  | _ => None
  end.

(** The claim of C1 as the specification words it, for the [N] beats after
    the scheduler was armed with counter 0 and swing 0: the time planned
    after beat [N] is [anchor + N * intervalMs], read in the program's
    arithmetic ([drift_free]) or over the reals ([drift_free_exactly]). *)
Definition drift_free (c : Closure) (anchor : float) (N : Z) (r : Refs) : Prop :=
  nextBeatTimeRef r = anchor + of_uint63 (Uint63.of_Z N) * interval c.

Definition drift_free_exactly (c : Closure) (anchor : float) (N : Z) (r : Refs) : Prop :=
  exists a i x : Q,
    value anchor = Some a /\ value (interval c) = Some i /\
    value (nextBeatTimeRef r) = Some x /\
    (x == a + inject_Z N * i)%Q.

(** Playing at 84 bpm from clock 0, and the state after seven beats. *)
Definition at84 : Closure * Refs :=
  scheduleBeats 84 "1/1" 0 0 0 {| beatIndexRef := 0; nextBeatTimeRef := 0 |}.

Definition after7 : Refs :=
  polls (fst at84) [0; 715; 1429; 2143; 2858; 3572; 4286] (snd at84).

Lemma planned_fire (c : Closure) (r : Refs) (n : nat) :
  planned c (beatIndexRef r) (nextBeatTimeRef r) (S n)
  = planned c (beatIndexRef (fireBeat c r)) (nextBeatTimeRef (fireBeat c r)) n.
Proof. reflexivity. Qed.

Lemma polls_planned (c : Closure) (ts : list float) :
  forall r : Refs,
  exists n : nat,
    (n <= List.length ts)%nat /\
    beatIndexRef (polls c ts r) = (beatIndexRef r + Z.of_nat n)%Z /\
    nextBeatTimeRef (polls c ts r)
      = planned c (beatIndexRef r) (nextBeatTimeRef r) n.
Proof.
  induction ts as [|now ts IH]; intro r.
  - exists 0%nat. cbn. repeat split; [lia|].
    unfold polls. cbn. lia.
  - change (polls c (now :: ts) r) with (polls c ts (schedulerCallback c now r)).
    destruct (IH (schedulerCallback c now r)) as (n & L & I & P).
    unfold schedulerCallback in *.
    destruct (ge now (nextBeatTimeRef r)).
    + exists (S n). split; [cbn; lia|]. split.
      * rewrite I. cbn [fireBeat beatIndexRef]. lia.
      * rewrite P. symmetry. apply planned_fire.
    + exists n. split; [cbn; lia|]. split; assumption.
Qed.

(** C1, as stated, fails.  At 84 bpm the interval is the binary64 value
    nearest to 60000/84.  Playing from clock 0, seven beats fire and the
    eighth is planned at 5000.000000000001, one unit in the last place
    above 5000, while [anchor + 7 * interval] is 5000 in the program's
    arithmetic and lies strictly between the two over the reals: the seven
    additions have rounded upwards.  The poll at clock 5000 therefore finds
    no beat due. *)
Lemma rounding_accumulates_in_the_schedule :
  beatIndexRef after7 = 7%Z /\
  nextBeatTimeRef after7 = next_up 5000 /\
  0 + of_uint63 (Uint63.of_Z 7) * interval (fst at84) = 5000 /\
  (drift_free (fst at84) 0 7 after7 -> False) /\
  (drift_free_exactly (fst at84) 0 7 after7 -> False) /\
  schedulerCallback (fst at84) 5000 after7 = after7.
Proof.
  split; [reflexivity|]. split; [reflexivity|]. split; [reflexivity|].
  split; [|split; [|reflexivity]].
  - unfold drift_free. intro H.
    apply (f_equal Prim2SF) in H. vm_compute in H. discriminate.
  - intros (a & i & x & Ha & Hi & Hx & E).
    vm_compute in Ha, Hi, Hx.
    injection Ha as <-. injection Hi as <-. injection Hx as <-.
    vm_compute in E. discriminate.
Qed.

(** C1 amended.  Let [scheduleBeats] arm the scheduler at the clock reading
    [now0], whatever the tempo, quantize, swing and offset are; the anchor
    is [now0 + offsetMs].  (1) Whatever the refs hold and whatever the clock
    reads, a poll either leaves them alone or counts one beat and adds
    [interval + swingDelta] to the previous target; the clock reading never
    enters the new value.  (2) Hence a run of polls at whatever clock
    readings fires some number [n] of beats, at most one per poll, and the
    time planned for the next beat is [planned n]: the anchor with
    [interval + swingDelta] added once per beat, each addition rounded to
    binary64.  (3) So two runs that fire the same number of beats plan the
    next beat at the same time, however late their polls came. *)
Theorem planned_time_ignores_poll_times
    (tempo : float) (quantize : string) (swing offsetMs now0 : float)
    (r0 : Refs) (ts : list float) :
  let c := fst (scheduleBeats tempo quantize swing offsetMs now0 r0) in
  let r := snd (scheduleBeats tempo quantize swing offsetMs now0 r0) in
  let anchor := now0 + offsetMs in
  let r' := polls c ts r in
  nextBeatTimeRef r = anchor /\
  beatIndexRef r = beatIndexRef r0 /\
  (forall (r1 : Refs) (now : float),
      schedulerCallback c now r1 = r1 \/
      schedulerCallback c now r1 =
        {| beatIndexRef := beatIndexRef r1 + 1;
           nextBeatTimeRef :=
             nextBeatTimeRef r1 +
               (interval c + swingDelta c (beatIndexRef r1 + 1)) |}) /\
  (exists n : nat,
      (n <= List.length ts)%nat /\
      beatIndexRef r' = (beatIndexRef r0 + Z.of_nat n)%Z /\
      nextBeatTimeRef r' = planned c (beatIndexRef r0) anchor n) /\
  (forall ts' : list float,
      beatIndexRef (polls c ts' r) = beatIndexRef r' ->
      polls c ts' r = r').
Proof.
  intros c r anchor r'.
  split; [reflexivity|]. split; [reflexivity|]. split; [|split].
  - intros r1 now. unfold schedulerCallback.
    destruct (ge now (nextBeatTimeRef r1)); [right; reflexivity|left; reflexivity].
  - apply (polls_planned c ts r).
  - intros ts' E. unfold r' in *.
    destruct (polls_planned c ts r) as (n & _ & I & P).
    destruct (polls_planned c ts' r) as (n' & _ & I' & P').
    assert (n' = n) by lia. subst n'.
    destruct (polls c ts r) as [i x], (polls c ts' r) as [i' x'].
    cbn [beatIndexRef nextBeatTimeRef] in *. congruence.
Qed.

End Binary64.

(* ================================================================== *)
(** * Interval computation and subdivision *)
(* ================================================================== *)


(** The sanity checks of the source: 120 bpm gives 500, 250 and 125 ms. *)
Example interval_120bpm :
  armed (exec (scheduleBeats (Fin 120)) mounted)
    = Some {| interval := Fin 500; swingAmt := Fin 0 |} /\
  armed (exec (setQuantize "1/2";; scheduleBeats (Fin 120)) mounted)
    = Some {| interval := Fin 250; swingAmt := Fin 0 |} /\
  armed (exec (setQuantize "1/4";; scheduleBeats (Fin 120)) mounted)
    = Some {| interval := Fin 125; swingAmt := Fin 0 |}.
Proof. vm_compute. repeat split. Qed.

(** A tempo of [NaN] (what [parseInt] answers for ".5") is not clamped: the
    interval is [NaN], and so is the timer delay. *)
Example interval_NaN :
  armed (exec (scheduleBeats NaN) mounted)
    = Some {| interval := NaN; swingAmt := Fin 0 |}.
Proof. vm_compute. reflexivity. Qed.




(** C7.  Subdivision relevance: for a beat index [beatIndex >= 0] and a
    subdivision factor [k > 0], both integers, [shouldHit] answers true
    exactly when [k] divides [beatIndex]. *)
Theorem shouldHit_iff_divisible (beatIndex k : Z) :
  (0 <= beatIndex)%Z ->
  (0 < k)%Z ->
  shouldHit (of_Z beatIndex) (Some (of_Z k)) = true <-> (beatIndex mod k = 0)%Z.
Proof.
  intros Hb Hk.
  rewrite shouldHit_of_Z by lia.
  rewrite Z.eqb_eq, Z.rem_mod_nonneg by lia.
  reflexivity.
Qed.

Lemma shouldHit_iff_divisible_witness :
  (0 <= 4)%Z /\ (0 < 2)%Z /\
  (shouldHit (of_Z 4) (Some (of_Z 2)) = true <-> (4 mod 2 = 0)%Z).
Proof.
  split; [lia|]. split; [lia|].
  apply (shouldHit_iff_divisible 4 2); lia.
Defined.

(** The examples of the specification and the checks of the source. *)
Example shouldHit_examples :
  map (fun b => shouldHit (of_Z b) (Some (Fin 2))) [0; 1; 2; 3; 4]%Z
    = [true; false; true; false; true] /\
  map (fun b => shouldHit (of_Z b) (Some (Fin 4))) [0; 1; 2; 3; 4; 8]%Z
    = [true; false; false; false; true; true] /\
  shouldHit (Fin 8) (Some (Fin 1)) = true /\
  shouldHit (Fin 8) None = true.
Proof. vm_compute. repeat split. Qed.

(** The three members react to a beat count through [shouldHit] and their
    constant factors 1, 1 and 2. *)
Lemma hit_flags (w : World) :
  (0 <= beatCount (st w))%Z ->
  hitDrums w = hitPulse (st w) /\
  hitViolin w = hitPulse (st w) /\
  hitBass w = Z.even (beatCount (st w)) && hitPulse (st w).
Proof.
  intro H. unfold hitDrums, hitViolin, hitBass, hitFlag. cbn [nth_error band option_map subdivision].
  change (Fin 1) with (of_Z 1). change (Fin 2) with (of_Z 2).
  rewrite !shouldHit_of_Z by lia.
  rewrite Z.rem_1_r. cbn [Z.eqb andb].
  repeat split. f_equal.
  rewrite Z.rem_mod_nonneg by lia. rewrite Zeven_mod. reflexivity.
Qed.

(** C10.  A subdivision factor of zero is not rejected anywhere: for every
    beat index, [beatIndex % 0] is [NaN], [NaN === 0] is false, and
    [shouldHit] answers false; a negative factor is not rejected either and
    tests divisibility by its absolute value. *)
Theorem shouldHit_zero_subdivision (beatIndex : number) :
  (beatIndex rem Fin 0)%js = NaN /\
  (NaN === Fin 0)%js = false /\
  shouldHit beatIndex (Some (Fin 0)) = false /\
  (forall (b : Z) (p : positive),
      shouldHit (of_Z b) (Some (of_Z (Z.neg p))) = (Z.rem b (Z.pos p) =? 0)%Z).
Proof.
  assert (R : (beatIndex rem Fin 0)%js = NaN) by (destruct beatIndex; reflexivity).
  split; [exact R|]. split; [reflexivity|].
  split.
  - unfold shouldHit, nullish. rewrite R. reflexivity.
  - intros b p. rewrite shouldHit_of_Z by discriminate.
    change (Z.neg p) with (- Z.pos p)%Z. now rewrite Z.rem_opp_r by discriminate.
Qed.

(* ================================================================== *)
(** * The pulse *)
(* ================================================================== *)

(** C2, as stated, fails.  At 240 bpm and quantize 1/4 the interval is
    62.5 ms; let the polls at 0 and 63 fire two beats.  Two resets are then
    pending, due at 100 and at 163, each on its own timer, and the pulse
    goes off at 100, the earlier expiry, not at 163: it is not extended.
    A third beat, at 125, would even be cut short by the second reset. *)
Lemma second_beat_does_not_extend_pulse :
  let w := exec (setManualBpm 240;; setQuantize "1/4";; play None;;
                 poll 1 0;; poll 1 63) loaded in
  beats (trace (env w)) = [1; 2]%Z /\
  timeouts (env w) = [(2%positive, 100); (3%positive, 163)] /\
  pulseAt 100 w = false /\
  ~ pulse_extended 63 w /\
  pulses (trace (env (exec (elapse 200) w))) = [(0, true); (100, false)] /\
  pulses (trace (env (exec (poll 1 125;; elapse 200) w)))
    = [(0, true); (100, false); (125, true); (163, false)].
Proof.
  cbv zeta.
  split; [vm_compute; reflexivity|].
  split; [vm_compute; reflexivity|].
  split; [vm_compute; reflexivity|].
  split; [|split; vm_compute; reflexivity].
  intro H. specialize (H 100).
  assert (E : pulseAt 100
                (exec (setManualBpm 240;; setQuantize "1/4";; play None;;
                       poll 1 0;; poll 1 63) loaded) = false)
    by (vm_compute; reflexivity).
  rewrite E in H. discriminate H; lra.
Qed.

(** C2 amended.  Every beat sets [hitPulse] and schedules its own reset
    100 ms later; nothing is extended.  Let the pulse be off with no reset
    pending, and let two beats arrive at [t1] and at [t2], less than 100 ms
    apart, with no other beat.  Then two resets are pending after the second
    beat, due at [t1 + 100] and [t2 + 100]; the pulse is on from [t1] until
    [t1 + 100] and off from then on; and the trace shows exactly one
    activation, at [t1], and exactly one deactivation, at the earlier expiry
    [t1 + 100]: the second beat and the second reset change nothing. *)
Theorem two_beats_one_pulse (w : World) (t1 t2 T : Q) :
  hitPulse (st w) = false ->
  timeouts (env w) = [] ->
  t1 <= t2 ->
  t2 < t1 + 100 ->
  t2 + 100 <= T ->
  let w1 := exec (elapse t1;; triggerBeat) w in
  let w2 := exec (elapse t2;; triggerBeat) w1 in
  let w3 := exec (elapse T) w2 in
  timeouts (env w2) =
    [(nextId (env w), Qred (t1 + 100)); (Pos.succ (nextId (env w)), Qred (t2 + 100))] /\
  hitPulse (st w1) = true /\
  hitPulse (st w2) = true /\
  (forall t : Q, t2 <= t -> t < t1 + 100 -> pulseAt t w2 = true) /\
  (forall t : Q, t1 + 100 <= t -> pulseAt t w2 = false) /\
  pulses (trace (env w3)) =
    pulses (trace (env w)) ++ [(t1, true); (Qred (t1 + 100), false)] /\
  timeouts (env w3) = [].
Proof.
  destruct w as [s r e].
  destruct s as [ip b mb off qz sw bc hp aa], r, e. cbn [st env hitPulse timeouts].
  intros Hp Ht H1 H2 H3. subst.
  assert (N : (Pos.succ nextId0 =? nextId0)%positive = false)
    by (apply Pos.eqb_neq; lia).
  split; [run_world; reflexivity|].
  split; [run_world; reflexivity|].
  split; [run_world; reflexivity|].
  split; [|split; [|split]].
  - intros t L U. unfold pulseAt. run_world. reflexivity.
  - intros t L. unfold pulseAt. run_world.
    destruct (Qle_bool (Qred (t2 + 100)) t); run_world; reflexivity.
  - run_world. unfold pulses. rewrite !flat_map_app. cbn.
    rewrite !app_nil_r, <- app_assoc. reflexivity.
  - run_world. rewrite Pos.eqb_refl, N. cbn. rewrite Pos.eqb_refl. reflexivity.
Qed.

Lemma two_beats_one_pulse_witness :
  hitPulse (st mounted) = false /\
  timeouts (env mounted) = [] /\
  0 <= 63 /\ 63 < 0 + 100 /\ 63 + 100 <= 200 /\
  let w2 := exec (elapse 63;; triggerBeat) (exec (elapse 0;; triggerBeat) mounted) in
  timeouts (env w2) = [(1%positive, Qred (0 + 100)); (2%positive, Qred (63 + 100))] /\
  pulses (trace (env (exec (elapse 200) w2))) = [(0, true); (Qred (0 + 100), false)].
Proof.
  split; [reflexivity|]. split; [reflexivity|].
  split; [lra|]. split; [lra|]. split; [lra|].
  destruct (two_beats_one_pulse mounted 0 63 200) as (A & _ & _ & _ & _ & B & _);
    [reflexivity|reflexivity|lra|lra|lra|].
  split; [exact A|exact B].
Defined.

(* ================================================================== *)
(** * Changing the configuration while playing *)
(* ================================================================== *)

(** C6, as stated, fails.  Play at clock 0 with 120 bpm: the first beat
    fires at 0 and the second is planned at 500 on the grid anchored at 0.
    At clock 100 the tempo is set to 60: the next beat is now planned at
    100, the clock reading of the change, and no longer at 500; the grid
    is anchored anew.  The same happens for each of the other controls. *)
Lemma config_change_moves_anchor :
  let w := exec (play None;; poll 1 0;; elapse 100) loaded in
  isPlaying (st w) = true /\
  nextBeatTimeRef (refs w) = Fin 500 /\
  nextBeatTimeRef (refs (exec (apply_change (Tempo 60)) w)) = Fin 100 /\
  ~ anchor_kept (Tempo 60) w /\
  ~ anchor_kept (Quantize "1/2") w /\
  ~ anchor_kept (Swing 20) w /\
  ~ anchor_kept (Offset 10) w.
Proof.
  cbv zeta. unfold anchor_kept.
  repeat split; try (vm_compute; reflexivity); vm_compute; discriminate.
Qed.

Lemma audio_app (l1 l2 : list event) : audio (l1 ++ l2) = audio l1 ++ audio l2.
Proof. apply filter_app. Qed.

Lemma scheduleBeats_audio (tempo : number) (w : World) :
  audio (trace (env (exec (scheduleBeats tempo) w))) = audio (trace (env w)).
Proof.
  destruct w as [s r e]. destruct r as [cx bf src nb [k|] bi];
    unfold scheduleBeats, clearScheduler, window_clearInterval, window_setInterval,
      performance_now, emit, exec, bind, gets, modify, ret, on_refs, on_env; cbn;
    rewrite !audio_app; cbn; now rewrite ?app_nil_r.
Qed.

(** What a call of [scheduleBeats] adds to the trace. *)
Lemma scheduleBeats_trace (tempo : number) (w : World) :
  exists c,
    armed (exec (scheduleBeats tempo) w) = Some c /\
    trace (env (exec (scheduleBeats tempo) w)) =
      (trace (env w) ++
         match schedulerTimerRef (refs w) with
         | Some old => [IntervalCleared old]
         | None => []
         end)
      ++ [IntervalSet (nextId (env w))
            (Math.max 4 (Math.min 16 (interval c / Fin 8)%js))].
Proof.
  destruct w as [s r e]. destruct r as [cx bf src nb [k|] bi], e; cbn;
    rewrite Pos.eqb_refl; eexists; (split; [reflexivity|]); cbn;
    rewrite ?app_nil_r; reflexivity.
Qed.

Lemma apply_change_reschedules (ch : change) (w : World) :
  isPlaying (st w) = true ->
  differs ch (st w) = true ->
  apply_change ch w =
    scheduleBeats (bpm (commit ch (st w)) ?? manualBpm (commit ch (st w)))
      (on_st (commit ch) w).
Proof.
  intros P D. destruct w as [s r e]. cbn [st] in P, D.
  destruct ch; cbn [differs] in D;
    unfold apply_change, setManualBpm, setQuantize, setSwing, setOffsetMs,
      rescheduleEffect, when, bind, gets, modify, on_st; cbn [st];
    rewrite D; destruct s; cbn in P |- *; rewrite P; reflexivity.
Qed.

(** C6 amended.  When tempo, quantize, swing or offset changes while
    playing, the effect calls [scheduleBeats] again on the committed
    state: the old interval is cleared and a new one armed with the
    recomputed interval and swing, and the next beat is planned at the
    clock reading of the change plus [offsetMs], whatever had been planned
    before.  The live intervals are the new one and what was live before
    without the timer [schedulerTimerRef] held; the trace gains the
    [clearInterval] of that timer and the [setInterval] of the new one;
    and where the old timer was the only live interval, as it is in every
    world the component reaches, the new one is the only one afterwards.
    Playback is not restarted: the audio source, [isPlaying] and the beat
    counters stay as they are and no Web Audio call is made. *)
Theorem config_change_rearms_at_now (ch : change) (w : World) :
  isPlaying (st w) = true ->
  differs ch (st w) = true ->
  let s' := commit ch (st w) in
  let w' := exec (apply_change ch) w in
  let q := if String.eqb (quantize s') "1/1" then Fin 1
           else if String.eqb (quantize s') "1/2" then Fin 0.5 else Fin 0.25 in
  let c' := {| interval := (Fin 60000 / clamp (bpm s' ?? manualBpm s') 40 240 * q)%js;
               swingAmt := (swing s' / Fin 100)%js |} in
  apply_change ch w = scheduleBeats (bpm s' ?? manualBpm s') (on_st (commit ch) w) /\
  outcome (apply_change ch) w = Normal tt /\
  st w' = s' /\
  isPlaying (st w') = true /\
  nextBeatTimeRef (refs w') = (Fin (clock (env w)) + offsetMs s')%js /\
  schedulerTimerRef (refs w') = Some (nextId (env w)) /\
  armed w' = armed (exec (scheduleBeats (bpm s' ?? manualBpm s')) (on_st (commit ch) w)) /\
  sourceRef (refs w') = sourceRef (refs w) /\
  beatIndexRef (refs w') = beatIndexRef (refs w) /\
  beatCount (st w') = beatCount (st w) /\
  audio (trace (env w')) = audio (trace (env w)) /\
  armed w' = Some c' /\
  intervals (env w') =
    (nextId (env w), c') ::
      match schedulerTimerRef (refs w) with
      | Some old => remove_id old (intervals (env w))
      | None => intervals (env w)
      end /\
  (forall old : positive,
      schedulerTimerRef (refs w) = Some old ->
      trace (env w') =
        trace (env w) ++
          [IntervalCleared old;
           IntervalSet (nextId (env w))
             (Math.max 4 (Math.min 16 (interval c' / Fin 8)%js))]) /\
  (one_timer w -> intervals (env w') = [(nextId (env w), c')]).
Proof.
  intros P D s' w' q c'.
  pose proof (apply_change_reschedules ch w P D) as E. fold s' in E.
  assert (Ew : w' = exec (scheduleBeats (bpm s' ?? manualBpm s')) (on_st (commit ch) w))
    by (unfold w', exec; now rewrite E).
  assert (F : st (on_st (commit ch) w) = s' /\
              refs (on_st (commit ch) w) = refs w /\
              env (on_st (commit ch) w) = env w)
    by (destruct w; repeat split).
  destruct F as (Fs & Fr & Fe).
  destruct (scheduleBeats_spec (bpm s' ?? manualBpm s') (on_st (commit ch) w))
    as (N & S1 & R1 & I1 & _ & _ & A1).
  destruct (scheduleBeats_trace (bpm s' ?? manualBpm s') (on_st (commit ch) w))
    as (c0 & A0 & T1).
  rewrite <- Ew in S1, R1, I1, A1, A0, T1.
  rewrite Fs, ?Fr, ?Fe in *. fold q c' in A1, I1.
  rewrite A1 in A0. injection A0 as <-.
  split; [exact E|].
  split; [unfold outcome in *; rewrite E; exact N|].
  split; [exact S1|].
  split; [rewrite S1; unfold s'; destruct ch, w as [[] ? ?]; exact P|].
  split; [rewrite R1; reflexivity|].
  split; [rewrite R1; reflexivity|].
  split; [now rewrite Ew|].
  split; [rewrite R1; reflexivity|].
  split; [rewrite R1; reflexivity|].
  split; [rewrite S1; unfold s'; destruct ch, w as [[] ? ?]; reflexivity|].
  split; [rewrite Ew, scheduleBeats_audio, Fe; reflexivity|].
  split; [exact A1|].
  split; [exact I1|].
  split.
  - intros old O. rewrite T1, O, <- app_assoc. reflexivity.
  - intro O. rewrite I1. unfold one_timer in O.
    destruct (schedulerTimerRef (refs w)) as [old|].
    + destruct O as [c O]. rewrite O. unfold remove_id. cbn.
      rewrite Pos.eqb_refl. reflexivity.
    + rewrite O. reflexivity.
Qed.

Lemma config_change_rearms_at_now_witness :
  let w := exec (play None;; poll 1 0;; elapse 100) loaded in
  let w' := exec (apply_change (Tempo 60)) w in
  isPlaying (st w) = true /\
  differs (Tempo 60) (st w) = true /\
  nextBeatTimeRef (refs w')
    = (Fin (clock (env w)) + offsetMs (commit (Tempo 60) (st w)))%js /\
  sourceRef (refs w') = sourceRef (refs w) /\
  intervals (env w) = [(1%positive, {| interval := Fin 500; swingAmt := Fin 0 |})] /\
  intervals (env w')
    = [(nextId (env w), {| interval := Fin 1000; swingAmt := Fin 0 |})] /\
  nextId (env w) <> 1%positive.
Proof.
  cbv zeta.
  split; [reflexivity|]. split; [reflexivity|].
  destruct (config_change_rearms_at_now (Tempo 60)
              (exec (play None;; poll 1 0;; elapse 100) loaded))
    as (_ & _ & _ & _ & A & _ & _ & B & _ & _ & _ & _ & _ & _ & C);
    [reflexivity|reflexivity|].
  split; [exact A|]. split; [exact B|].
  split; [vm_compute; reflexivity|].
  split; [|vm_compute; discriminate].
  rewrite C by (vm_compute; eexists; reflexivity).
  vm_compute. reflexivity.
Defined.

(* ================================================================== *)
(** * One poll loop at a time *)
(* ================================================================== *)

Lemma remove_id_single {A : Type} (id : positive) (a : A) :
  remove_id id [(id, a)] = [].
Proof.
  unfold remove_id. cbn. now rewrite Pos.eqb_refl.
Qed.

Lemma one_timer_mounted : one_timer mounted /\ one_timer loaded.
Proof. split; reflexivity. Qed.

Lemma clearScheduler_one_timer (w : World) :
  one_timer w -> one_timer (exec clearScheduler w).
Proof.
  unfold one_timer. destruct w as [s r e]. destruct r as [cx bf src nb [k|] bi], e; cbn.
  - intros [c ->]. apply remove_id_single.
  - auto.
Qed.

Lemma scheduleBeats_one_timer (tempo : number) (w : World) :
  one_timer w -> one_timer (exec (scheduleBeats tempo) w).
Proof.
  intro H.
  destruct (scheduleBeats_spec tempo w) as (_ & _ & R & I & _).
  unfold one_timer in *. rewrite R, I. cbn.
  eexists. f_equal.
  destruct (schedulerTimerRef (refs w)); [|exact H].
  destruct H as [c ->]. apply remove_id_single.
Qed.

Lemma stop_one_timer (w : World) : one_timer w -> one_timer (exec stop w).
Proof.
  unfold one_timer. destruct w as [s r e].
  destruct r as [cx bf [[i b [|]]|] nb [k|] bi], e; cbn; auto;
    intros [c ->]; apply remove_id_single.
Qed.

Lemma onended_one_timer (w : World) : one_timer w -> one_timer (exec onended w).
Proof.
  unfold one_timer. destruct w as [s r e].
  destruct r as [cx bf src nb [k|] bi], e; cbn; auto.
  intros [c ->]. apply remove_id_single.
Qed.

Lemma play_one_timer (buffer : option AudioBuffer) (w : World) :
  one_timer w -> one_timer (exec (play buffer) w).
Proof.
  unfold one_timer. destruct w as [s r e].
  destruct r as [cx [bf|] [[i b [|]]|] nb [k|] bi], e, buffer as [buf|]; cbn; auto;
    try (intros [c ->]); try (intros ->); cbn; rewrite ?Pos.eqb_refl; cbn; eauto.
Qed.

Lemma poll_one_timer (id : positive) (t : Q) (w : World) :
  one_timer w -> one_timer (exec (poll id t) w).
Proof.
  intro H. unfold poll.
  destruct (elapse_quiet t w) as (w1 & E1 & (R1 & I1 & _) & C1).
  unfold exec, bind at 1. rewrite E1.
  unfold fire, bind at 1, gets at 1.
  assert (H1 : one_timer w1) by (unfold one_timer; now rewrite R1, I1).
  destruct (lookup_id id (intervals (env w1))) as [c|]; [|exact H1].
  destruct (Fin (clock (env w1)) >= nextBeatTimeRef (refs w1))%js eqn:G.
  - rewrite (schedulerCallback_due c w1 G). cbn [snd].
    unfold exec. rewrite triggerBeat_spec. exact H1.
  - rewrite (schedulerCallback_early c w1 G). exact H1.
Qed.

Lemma apply_change_one_timer (ch : change) (w : World) :
  one_timer w -> one_timer (exec (apply_change ch) w).
Proof.
  intro H.
  assert (K : forall f, one_timer (on_st f w)) by (intro f; exact H).
  assert (R : forall w', one_timer w' -> one_timer (exec rescheduleEffect w')).
  { intros w' H'. unfold rescheduleEffect, exec, bind at 1, gets at 1.
    destruct (isPlaying (st w')); cbn [negb]; [|exact H'].
    apply (scheduleBeats_one_timer _ w' H'). }
  destruct ch; unfold apply_change, setManualBpm, setQuantize, setSwing, setOffsetMs,
    exec, bind, gets, modify; cbn [fst snd];
    match goal with
    | |- context [when ?b _] => destruct b; cbn [when]; [apply R|]; apply K
    end.
Qed.

(* ================================================================== *)
(** * The component driven from outside *)
(* ================================================================== *)

(** The Play/Stop button (line 431):
    [onClick={()=> (isPlaying? stop(): play())}] *)
Definition onClickPlayStop : M unit :=
  p <- gets (fun w => isPlaying (st w));;
  if p then stop else play None.

(** What can happen to a mounted component: a file is picked and decoded,
    the button is clicked, a control is moved, a source reports [ended], an
    interval fires at some clock reading, or time just passes. *)
Variant action : Type :=
| Pick (buffer : AudioBuffer)
| Click
| Change (ch : change)
| Ended
| Poll (id : positive) (t : Q)
| Elapse (t : Q).

Definition act (a : action) : M unit :=
  match a with
  | Pick buffer => onAudioPick buffer
  | Click => onClickPlayStop
  | Change ch => apply_change ch
  | Ended => onended
  | Poll id t => poll id t
  | Elapse t => elapse t
  end.

(** [performance.now()] never goes back. *)
Definition timely (a : action) (w : World) : Prop :=
  match a with
  | Poll _ t | Elapse t => clock (env w) <= t
  | _ => True
  end.

Inductive reachable : World -> Prop :=
| reachable_mounted : reachable mounted
| reachable_step (w : World) (a : action) :
    reachable w -> timely a w -> reachable (exec (act a) w).

(** What every reachable world satisfies. *)
Record invariant (w : World) : Prop := {
  counters_agree : beatCount (st w) = beatIndexRef (refs w);
  counters_nonneg : (0 <= beatCount (st w))%Z;
  arm_follows : activeArm (st w) = (beatCount (st w) mod 8)%Z;
  single_timer : one_timer w;
  playing_iff_armed :
    isPlaying (st w) = true <-> schedulerTimerRef (refs w) <> None;
  source_started :
    forall src, sourceRef (refs w) = Some src -> src_started src = true;
  playing_has_source :
    isPlaying (st w) = true -> sourceRef (refs w) <> None;
  pulse_has_reset : hitPulse (st w) = true -> timeouts (env w) <> [];
  resets_due_soon :
    Forall (fun e => snd e <= clock (env w) + 100) (timeouts (env w))
}.

(** ** What each handler touches *)

Lemma stop_frame (w : World) :
  let w' := exec stop w in
  st w' = set_isPlaying false (st w) /\
  refs w' = set_schedulerTimerRef None (set_sourceRef None (refs w)) /\
  intervals (env w') =
    match schedulerTimerRef (refs w) with
    | Some old => remove_id old (intervals (env w))
    | None => intervals (env w)
    end /\
  clock (env w') = clock (env w) /\
  timeouts (env w') = timeouts (env w) /\
  beats (trace (env w')) = beats (trace (env w)).
Proof.
  destruct w as [s r e]. destruct r as [cx bf [[i b [|]]|] nb [k|] bi], e;
    cbn; rewrite ?beats_app; cbn; rewrite ?app_nil_r; repeat split.
Qed.

Lemma onended_frame (w : World) :
  let w' := exec onended w in
  st w' = set_isPlaying false (st w) /\
  refs w' = set_schedulerTimerRef None (refs w) /\
  intervals (env w') =
    match schedulerTimerRef (refs w) with
    | Some old => remove_id old (intervals (env w))
    | None => intervals (env w)
    end /\
  clock (env w') = clock (env w) /\
  timeouts (env w') = timeouts (env w) /\
  trace (env w') =
    trace (env w) ++
      match schedulerTimerRef (refs w) with
      | Some old => [IntervalCleared old]
      | None => []
      end.
Proof.
  destruct w as [s r e]. destruct r as [cx bf src nb [k|] bi], e;
    cbn; rewrite ?app_nil_r; repeat split.
Qed.

Lemma play_frame (w : World) (buf : AudioBuffer) :
  audioBufferRef (refs w) = Some buf ->
  let w' := exec (play None) w in
  let src := {| src_id := nextSource (env w); src_buffer := buf; src_started := true |} in
  outcome (play None) w = Normal tt /\
  st w' = set_isPlaying true (st w) /\
  refs w' =
    set_schedulerTimerRef (Some (nextId (env w)))
      (set_nextBeatTimeRef (Fin (clock (env w)) + offsetMs (st w))%js
         (set_sourceRef (Some src)
            (set_audioCtxRef (Some (audioCtxRef (refs w) ?? AudioCtx)) (refs w)))) /\
  (exists c, intervals (env w') =
     (nextId (env w), c) ::
       match schedulerTimerRef (refs w) with
       | Some old => remove_id old (intervals (env w))
       | None => intervals (env w)
       end) /\
  clock (env w') = clock (env w) /\
  timeouts (env w') = timeouts (env w) /\
  beats (trace (env w')) = beats (trace (env w)) /\
  audio (trace (env w')) =
    audio (trace (env w)) ++
      match sourceRef (refs w) with
      | Some old =>
          (if src_started old then [SourceStopped (src_id old)] else [])
          ++ [SourceDisconnected (src_id old)]
      | None => []
      end ++ [SourceStarted (nextSource (env w))].
Proof.
  destruct w as [s r e]. destruct r as [cx bf [[i b [|]]|] nb [k|] bi], e.
  all: cbn [refs audioBufferRef]; intros ->.
  all: cbn; rewrite ?beats_app, ?audio_app; cbn; rewrite ?app_nil_r, <- ?app_assoc.
  all: repeat split; eauto.
Qed.

(** ** What pending resets do when time passes *)

Definition any_due (t : Q) (pending : list (positive * Q)) : bool :=
  existsb (fun e => Qle_bool (snd e) t) pending.

Lemma setHitPulse_effect (v : bool) (w : World) :
  exists w', setHitPulse v w = (Normal tt, w') /\
    quiet w w' /\
    hitPulse (st w') = v /\
    timeouts (env w') = timeouts (env w) /\
    clock (env w') = clock (env w).
Proof.
  destruct w as [s r e]. destruct s as [ip b mb off qz sw bc hp aa], r, e.
  unfold setHitPulse, emit, when, bind, gets, modify, ret, on_st, on_env, quiet; cbn.
  destruct (Bool.eqb hp v); cbn; eexists; (split; [reflexivity|]); cbn;
    rewrite ?beats_app, ?app_nil_r; repeat split.
Qed.

Lemma remove_id_incl {A : Type} (id : positive) (l : list (positive * A)) :
  incl (remove_id id l) l.
Proof. intros x H. apply filter_In in H. tauto. Qed.

Lemma remove_id_gone {A : Type} (id : positive) (a : A) (l : list (positive * A)) :
  ~ In (id, a) (remove_id id l).
Proof.
  intro H. apply filter_In in H. destruct H as [_ H].
  cbn in H. rewrite Pos.eqb_refl in H. discriminate.
Qed.

Lemma runTimeouts_effect (t : Q) (pending : list (positive * Q)) :
  forall w : World,
  exists w',
    runTimeouts t pending w = (Normal tt, w') /\
    quiet w w' /\
    incl (timeouts (env w')) (timeouts (env w)) /\
    (forall id due, In (id, due) pending -> due <= t ->
       forall d, ~ In (id, d) (timeouts (env w'))) /\
    (any_due t pending = true -> hitPulse (st w') = false) /\
    (any_due t pending = false -> w' = w).
Proof.
  induction pending as [|[k due] rest IH]; intro w.
  - exists w. split; [reflexivity|]. split; [apply quiet_refl|].
    split; [apply incl_refl|]. split; [intros ? ? []|].
    split; [discriminate|reflexivity].
  - cbn [runTimeouts any_due existsb snd]. fold (any_due t rest).
    destruct (Qle_bool due t) eqn:D.
    + unfold bind at 1. unfold modify at 1.
      set (w1 := on_env _ w).
      destruct (setHitPulse_effect false w1) as (w2 & E2 & Q2 & H2 & T2 & _).
      unfold bind at 1. rewrite E2.
      destruct (IH w2) as (w3 & E3 & Q3 & I3 & G3 & F3 & S3).
      assert (I1 : incl (timeouts (env w3)) (remove_id k (timeouts (env w)))).
      { intros x Hx. apply I3 in Hx. rewrite T2 in Hx. exact Hx. }
      exists w3. split; [exact E3|].
      split; [apply quiet_trans with (2 := Q3); apply quiet_trans with (2 := Q2);
              repeat split|].
      split; [intros x Hx; apply I1 in Hx; now apply remove_id_incl in Hx|].
      split; [|split; [|discriminate]].
      * intros i d [Hh|Hr] Hd d' Hin.
        -- inversion Hh; subst. apply I1 in Hin. now apply remove_id_gone in Hin.
        -- exact (G3 i d Hr Hd d' Hin).
      * intros _. destruct (any_due t rest) eqn:A.
        -- now apply F3.
        -- rewrite (S3 eq_refl). exact H2.
    + destruct (IH w) as (w3 & E3 & Q3 & I3 & G3 & F3 & S3).
      exists w3. split; [exact E3|]. split; [exact Q3|]. split; [exact I3|].
      split; [|split; [exact F3|exact S3]].
      intros i d [Hh|Hr] Hd.
      * inversion Hh; subst. apply Qle_bool_iff in Hd. congruence.
      * exact (G3 i d Hr Hd).
Qed.

Lemma elapse_effect (t : Q) (w : World) :
  exists w',
    elapse t w = (Normal tt, w') /\
    quiet w w' /\
    clock (env w') = t /\
    incl (timeouts (env w')) (timeouts (env w)) /\
    (forall e, In e (timeouts (env w')) -> t < snd e) /\
    (any_due t (timeouts (env w)) = true -> hitPulse (st w') = false) /\
    (any_due t (timeouts (env w)) = false ->
       hitPulse (st w') = hitPulse (st w) /\
       timeouts (env w') = timeouts (env w)).
Proof.
  unfold elapse. unfold bind at 1. unfold gets at 1.
  destruct (runTimeouts_effect t (timeouts (env w)) w)
    as (w1 & E1 & Q1 & I1 & G1 & F1 & S1).
  unfold bind at 1. rewrite E1.
  eexists. split; [reflexivity|].
  split; [apply quiet_trans with (1 := Q1); repeat split|].
  split; [reflexivity|]. split; [exact I1|].
  split; [|split; [exact F1|intro A; now rewrite (S1 A)]].
  intros [i d] Hin. cbn [snd].
  destruct (Qlt_le_dec t d) as [L|L]; [exact L|].
  exfalso. exact (G1 i d (I1 _ Hin) L d Hin).
Qed.

(** ** The invariant is kept *)

Lemma invariant_mounted : invariant mounted.
Proof.
  constructor; cbn.
  all: try reflexivity; try discriminate; try lia.
  - split; [discriminate|intro H; exfalso; now apply H].
  - constructor.
Qed.

Lemma quiet_st (w w' : World) :
  quiet w w' ->
  beatCount (st w') = beatCount (st w) /\
  activeArm (st w') = activeArm (st w) /\
  isPlaying (st w') = isPlaying (st w).
Proof.
  intros (_ & _ & _ & H & _).
  split; [apply (f_equal beatCount) in H; exact H|].
  split; [apply (f_equal activeArm) in H; exact H|].
  apply (f_equal isPlaying) in H; exact H.
Qed.

Lemma elapse_invariant (t : Q) (w : World) :
  invariant w -> clock (env w) <= t -> invariant (exec (elapse t) w).
Proof.
  intros H L.
  destruct (elapse_effect t w) as (w' & E & Q & C & I & G & F & S).
  unfold exec. rewrite E. cbn [snd].
  destruct (quiet_st _ _ Q) as (B & A & P).
  pose proof Q as (R & V & _).
  destruct H. constructor; rewrite ?B, ?A, ?P, ?R, ?C; auto.
  - unfold one_timer in *. now rewrite R, V.
  - intro Hp. destruct (any_due t (timeouts (env w))) eqn:D.
    + rewrite (F eq_refl) in Hp. discriminate.
    + destruct (S eq_refl) as [S1 S2]. rewrite S1 in Hp. rewrite S2. auto.
  - apply Forall_forall. intros e He.
    rewrite Forall_forall in resets_due_soon0.
    specialize (resets_due_soon0 e (I e He)). lra.
Qed.

Lemma triggerBeat_invariant (x : number) (w : World) :
  invariant w ->
  invariant (on_refs (set_nextBeatTimeRef x) (exec triggerBeat w)).
Proof.
  intro H. unfold exec. rewrite triggerBeat_spec. cbn [snd].
  destruct H. destruct w as [s r e]. destruct s, r, e.
  unfold one_timer in *. cbn in *.
  constructor; cbn; auto.
  - lia.
  - lia.
  - rewrite arm_follows0, Z.rem_mod_nonneg.
    + now rewrite Z.add_mod_idemp_l.
    + pose proof (Z.mod_pos_bound beatCount0 8). lia.
    + lia.
  - intros _ E. now destruct timeouts0.
  - apply Forall_app. split; [exact resets_due_soon0|].
    constructor; [|constructor]. cbn. rewrite Qred_correct. lra.
Qed.

Lemma fire_cases (id : positive) (w : World) :
  exists w', fire id w = (Normal tt, w') /\
    (w' = w \/
     exists x, w' = on_refs (set_nextBeatTimeRef x) (exec triggerBeat w)).
Proof.
  unfold fire. unfold bind at 1. unfold gets at 1.
  destruct (lookup_id id (intervals (env w))) as [c|];
    [|exists w; split; [reflexivity|now left]].
  destruct (Fin (clock (env w)) >= nextBeatTimeRef (refs w))%js eqn:G.
  - rewrite (schedulerCallback_due c w G). eexists. split; [reflexivity|]. right. eauto.
  - rewrite (schedulerCallback_early c w G). exists w. split; [reflexivity|now left].
Qed.

Lemma poll_invariant (id : positive) (t : Q) (w : World) :
  invariant w -> clock (env w) <= t -> invariant (exec (poll id t) w).
Proof.
  intros H L. pose proof (elapse_invariant t w H L) as H1.
  destruct (elapse_effect t w) as (w1 & E & _).
  unfold exec in H1. rewrite E in H1. cbn [snd] in H1.
  unfold poll, exec, bind. rewrite E.
  destruct (fire_cases id w1) as (w2 & F & [->|[x ->]]); rewrite F; cbn [snd].
  - exact H1.
  - now apply triggerBeat_invariant.
Qed.

Lemma stop_invariant (w : World) : invariant w -> invariant (exec stop w).
Proof.
  intro H. pose proof (stop_one_timer w (single_timer w H)) as O.
  destruct (stop_frame w) as (S & R & _ & C & T & _).
  destruct H. constructor; rewrite ?S, ?R, ?C, ?T; cbn; auto.
  - split; [discriminate|intro H; exfalso; now apply H].
  - discriminate.
  - discriminate.
Qed.

Lemma onended_invariant (w : World) : invariant w -> invariant (exec onended w).
Proof.
  intro H. pose proof (onended_one_timer w (single_timer w H)) as O.
  destruct (onended_frame w) as (S & R & _ & C & T & _).
  destruct H. constructor; rewrite ?S, ?R, ?C, ?T; cbn; auto.
  - split; [discriminate|intro H; exfalso; now apply H].
  - discriminate.
Qed.

Lemma scheduleBeats_invariant (tempo : number) (w : World) :
  invariant w -> isPlaying (st w) = true ->
  invariant (exec (scheduleBeats tempo) w).
Proof.
  intros H P. pose proof (scheduleBeats_one_timer tempo w (single_timer w H)) as O.
  destruct (scheduleBeats_spec tempo w) as (_ & S & R & _ & C & T & _).
  destruct H. constructor; rewrite ?S, ?R, ?C, ?T; cbn; auto.
  split; [discriminate|auto].
Qed.

Lemma play_invariant (w : World) : invariant w -> invariant (exec (play None) w).
Proof.
  intro H. destruct (audioBufferRef (refs w)) as [buf|] eqn:B.
  - pose proof (play_one_timer None w (single_timer w H)) as O.
    destruct (play_frame w buf B) as (_ & S & R & _ & C & T & _).
    destruct H. constructor; rewrite ?S, ?R, ?C, ?T; cbn; auto.
    + split; [discriminate|auto].
    + intros src E. inversion E. reflexivity.
    + discriminate.
  - unfold exec, play, bind, gets. rewrite B. exact H.
Qed.

Lemma commit_invariant (ch : change) (w : World) :
  invariant w -> invariant (on_st (commit ch) w).
Proof.
  intro H. destruct H. destruct w as [s r e]. destruct s.
  unfold one_timer in *.
  destruct ch; constructor; cbn in *; auto.
Qed.

Lemma apply_change_cases (ch : change) (w : World) :
  exec (apply_change ch) w = on_st (commit ch) w \/
  (isPlaying (st w) = true /\
   exists tempo,
     exec (apply_change ch) w = exec (scheduleBeats tempo) (on_st (commit ch) w)).
Proof.
  destruct (isPlaying (st w)) eqn:P.
  - destruct (differs ch (st w)) eqn:D.
    + right. split; [reflexivity|]. eexists. unfold exec.
      now rewrite (apply_change_reschedules ch w P D).
    + left. destruct w as [s r e]. cbn [st] in P, D.
      destruct ch; cbn [differs] in D; apply negb_false_iff in D;
        unfold apply_change, setManualBpm, setQuantize, setSwing, setOffsetMs,
          when, exec, bind, gets, modify, on_st; cbn [st fst snd];
        rewrite D; reflexivity.
  - left. destruct w as [s r e]. cbn [st] in P.
    destruct ch;
      unfold apply_change, setManualBpm, setQuantize, setSwing, setOffsetMs,
        rescheduleEffect, when, exec, bind, gets, modify, on_st; cbn [st fst snd];
      match goal with |- context [negb ?b] => destruct b end; cbn [negb];
      destruct s; cbn in P |- *; rewrite ?P; reflexivity.
Qed.

Lemma apply_change_invariant (ch : change) (w : World) :
  invariant w -> invariant (exec (apply_change ch) w).
Proof.
  intro H. pose proof (commit_invariant ch w H) as H1.
  destruct (apply_change_cases ch w) as [->|[P [tempo ->]]]; [exact H1|].
  apply scheduleBeats_invariant; [exact H1|].
  destruct ch, w as [[] ? ?]; exact P.
Qed.

Lemma onAudioPick_invariant (buffer : AudioBuffer) (w : World) :
  invariant w -> invariant (exec (onAudioPick buffer) w).
Proof.
  intro H. destruct H. destruct w as [s r e]. destruct r.
  unfold one_timer in *. constructor; cbn in *; auto.
Qed.

Lemma onClickPlayStop_invariant (w : World) :
  invariant w -> invariant (exec onClickPlayStop w).
Proof.
  intro H. unfold onClickPlayStop, exec, bind at 1, gets at 1.
  destruct (isPlaying (st w)).
  - apply stop_invariant, H.
  - apply play_invariant, H.
Qed.

Lemma act_invariant (a : action) (w : World) :
  invariant w -> timely a w -> invariant (exec (act a) w).
Proof.
  intros H T. destruct a; cbn [act timely] in *.
  - now apply onAudioPick_invariant.
  - now apply onClickPlayStop_invariant.
  - now apply apply_change_invariant.
  - now apply onended_invariant.
  - now apply poll_invariant.
  - now apply elapse_invariant.
Qed.

Lemma reachable_invariant (w : World) : reachable w -> invariant w.
Proof.
  induction 1 as [|w a _ IH T].
  - apply invariant_mounted.
  - now apply act_invariant.
Qed.

(* ================================================================== *)
(** * Properties of every reachable world *)
(* ================================================================== *)

(** A world to try things on: a file is picked, the button is clicked at
    clock 0, and the interval fires at 0 and at 510. *)
Definition session : World :=
  exec (act (Poll 1 510))
    (exec (act (Poll 1 0)) (exec (act Click) (exec (act (Pick 0%nat)) mounted))).

Lemma session_reachable : reachable session.
Proof.
  unfold session.
  repeat (apply reachable_step; [|cbn [timely]; try exact I; vm_compute; discriminate]).
  apply reachable_mounted.
Qed.

(** X1.  The two beat counters never part: in every reachable world the
    state [beatCount] equals the ref [beatIndexRef], both are non-negative,
    and [activeArm] is [beatCount] modulo 8 (so it stays within the eight
    pads). *)
Theorem counters_stay_together (w : World) :
  reachable w ->
  beatCount (st w) = beatIndexRef (refs w) /\
  (0 <= beatCount (st w))%Z /\
  activeArm (st w) = (beatCount (st w) mod 8)%Z /\
  (0 <= activeArm (st w) < 8)%Z.
Proof.
  intro R. destruct (reachable_invariant w R).
  repeat split; auto; rewrite arm_follows0;
    apply (Z.mod_pos_bound (beatCount (st w)) 8); lia.
Qed.

Lemma counters_stay_together_witness :
  reachable session /\
  beatCount (st session) = beatIndexRef (refs session) /\
  activeArm (st session) = (beatCount (st session) mod 8)%Z.
Proof.
  split; [exact session_reachable|].
  destruct (counters_stay_together session session_reachable) as (A & _ & B & _).
  split; [exact A|exact B].
Defined.

(** X2.  The scheduler runs exactly while [isPlaying]: in every reachable
    world, [isPlaying] is true iff [schedulerTimerRef] holds a handle, and
    then exactly that one interval is live; when it is false no interval is
    live at all.  While playing, [sourceRef] holds a source on which
    [start()] has been called. *)
Theorem scheduler_runs_iff_playing (w : World) :
  reachable w ->
  (isPlaying (st w) = true ->
     exists id c src,
       schedulerTimerRef (refs w) = Some id /\
       intervals (env w) = [(id, c)] /\
       sourceRef (refs w) = Some src /\ src_started src = true) /\
  (isPlaying (st w) = false ->
     schedulerTimerRef (refs w) = None /\ intervals (env w) = []).
Proof.
  intro R. destruct (reachable_invariant w R).
  unfold one_timer in single_timer0.
  split; intro P.
  - destruct (schedulerTimerRef (refs w)) as [id|] eqn:T.
    + destruct single_timer0 as [c I].
      destruct (sourceRef (refs w)) as [src|] eqn:S.
      * exists id, c, src. repeat split; auto.
      * exfalso. now apply (playing_has_source0 P).
    + exfalso. apply playing_iff_armed0 in P. now apply P.
  - destruct (schedulerTimerRef (refs w)) as [id|] eqn:T.
    + assert (isPlaying (st w) = true) by (apply playing_iff_armed0; discriminate).
      congruence.
    + split; [reflexivity|exact single_timer0].
Qed.

Lemma scheduler_runs_iff_playing_witness :
  reachable session /\
  isPlaying (st session) = true /\
  exists id c src,
    schedulerTimerRef (refs session) = Some id /\
    intervals (env session) = [(id, c)] /\
    sourceRef (refs session) = Some src /\ src_started src = true.
Proof.
  split; [exact session_reachable|]. split; [reflexivity|].
  destruct (scheduler_runs_iff_playing session session_reachable) as [H _].
  apply H. reflexivity.
Defined.

Lemma polls_without_interval (id : positive) (ts : list Q) :
  forall w : World,
    lookup_id id (intervals (env w)) = None ->
    exists w', polls id ts w = (Normal tt, w') /\ quiet w w'.
Proof.
  induction ts as [|t ts IH]; intros w L.
  - exists w. split; [reflexivity|apply quiet_refl].
  - destruct (elapse_quiet t w) as (w1 & E1 & Q1 & _).
    assert (L1 : lookup_id id (intervals (env w1)) = None).
    { destruct Q1 as (_ & I & _). now rewrite I. }
    destruct (IH w1 L1) as (w2 & E2 & Q2).
    exists w2. split; [|now apply quiet_trans with (1 := Q1)].
    cbn [polls]. unfold bind at 1. unfold poll, bind at 1. rewrite E1.
    unfold fire, bind at 1, gets at 1. rewrite L1. exact E2.
Qed.

(** X3.  Once [stop()] or an [ended] notification has run, no beat fires
    any more: no interval is live, and whichever handle the browser might
    still fire, at whatever times, the counters, the refs and the beats of
    the trace stay as they are.  The pending pulse resets are not
    cancelled. *)
Theorem no_beat_after_stop (w : World) (halt : M unit) (id : positive) (ts : list Q) :
  reachable w ->
  halt = stop \/ halt = onended ->
  let w1 := exec halt w in
  let w2 := exec (polls id ts) w1 in
  intervals (env w1) = [] /\
  timeouts (env w1) = timeouts (env w) /\
  outcome (polls id ts) w1 = Normal tt /\
  refs w2 = refs w1 /\
  beatCount (st w2) = beatCount (st w) /\
  beats (trace (env w2)) = beats (trace (env w)).
Proof.
  intros R Hh w1 w2.
  pose proof (reachable_invariant w R) as Inv.
  assert (F : isPlaying (st w1) = false /\ invariant w1 /\
              timeouts (env w1) = timeouts (env w) /\
              beatCount (st w1) = beatCount (st w) /\
              beats (trace (env w1)) = beats (trace (env w))).
  { unfold w1. destruct Hh; subst halt.
    - destruct (stop_frame w) as (S & _ & _ & _ & T & B).
      rewrite S. split; [reflexivity|].
      split; [now apply stop_invariant|]. split; [exact T|].
      split; [reflexivity|exact B].
    - destruct (onended_frame w) as (S & _ & _ & _ & T & B).
      rewrite S, B, beats_app. split; [reflexivity|].
      split; [now apply onended_invariant|]. split; [exact T|].
      split; [reflexivity|].
      destruct (schedulerTimerRef (refs w)); cbn; now rewrite app_nil_r. }
  destruct F as (P & Inv1 & T & C & B).
  assert (I : intervals (env w1) = []).
  { destruct Inv1. unfold one_timer in single_timer0.
    destruct (schedulerTimerRef (refs w1)) eqn:E; [|exact single_timer0].
    assert (isPlaying (st w1) = true) by (apply playing_iff_armed0; discriminate).
    congruence. }
  destruct (polls_without_interval id ts w1) as (x & E & Q);
    [now rewrite I|].
  unfold w2, outcome, exec. rewrite E. cbn [fst snd].
  destruct (quiet_st _ _ Q) as (Bc & _).
  destruct Q as (Rf & _ & _ & _ & Bt).
  rewrite Rf, Bc, Bt. repeat split; auto.
Qed.

Lemma no_beat_after_stop_witness :
  reachable session /\
  (stop = stop \/ stop = onended) /\
  beatCount (st (exec (polls 1 [600; 1100; 1600]) (exec stop session)))
    = beatCount (st session).
Proof.
  split; [exact session_reachable|]. split; [now left|].
  destruct (no_beat_after_stop session stop 1 [600; 1100; 1600] session_reachable)
    as (_ & _ & _ & _ & H & _); [now left|exact H].
Defined.

Lemma any_due_all (t : Q) (pending : list (positive * Q)) :
  pending <> [] ->
  Forall (fun e => snd e <= t) pending ->
  any_due t pending = true.
Proof.
  destruct pending as [|e rest]; [congruence|].
  intros _ H. inversion H; subst. cbn.
  apply orb_true_iff. left. now apply Qle_bool_iff.
Qed.

(** X4.  A pulse always ends: from any reachable world, once 100 ms have
    passed on the clock without a further beat, [hitPulse] is false and no
    reset is pending any more, whatever happened before (beats in quick
    succession, stop, play, changed controls). *)
Theorem pulse_always_ends (w : World) (T : Q) :
  reachable w ->
  clock (env w) + 100 <= T ->
  pulseAt T w = false /\ timeouts (env (exec (elapse T) w)) = [].
Proof.
  intros R L. destruct (reachable_invariant w R).
  unfold pulseAt.
  destruct (elapse_effect T w) as (w' & E & _ & _ & I & G & F & S).
  unfold exec. rewrite E. cbn [snd].
  assert (D : Forall (fun e => snd e <= T) (timeouts (env w))).
  { apply Forall_forall. intros e He. rewrite Forall_forall in resets_due_soon0.
    specialize (resets_due_soon0 e He). lra. }
  split.
  - destruct (timeouts (env w)) as [|e rest] eqn:Et.
    + destruct (S eq_refl) as [S1 _]. rewrite S1.
      destruct (hitPulse (st w)); [|reflexivity].
      exfalso. now apply pulse_has_reset0.
    + apply F. apply any_due_all; [discriminate|exact D].
  - destruct (timeouts (env w')) as [|e rest] eqn:Et; [reflexivity|].
    exfalso. assert (He : In e (e :: rest)) by now left.
    pose proof (G e He) as G1.
    rewrite Forall_forall in D. specialize (D e (I e He)). lra.
Qed.

Lemma pulse_always_ends_witness :
  reachable session /\
  clock (env session) + 100 <= 610 /\
  pulseAt 610 session = false.
Proof.
  split; [exact session_reachable|].
  split; [vm_compute; discriminate|].
  apply (pulse_always_ends session 610 session_reachable).
  vm_compute; discriminate.
Defined.

(** X5.  The Play/Stop button: a click returns normally and never touches
    the beat counters (they are not reset between sessions).  It flips
    [isPlaying] whenever the component is playing or a decoded buffer is
    there; with nothing loaded and nothing playing it leaves the whole
    world as it was. *)
Theorem click_toggles (w : World) :
  let w' := exec onClickPlayStop w in
  outcome onClickPlayStop w = Normal tt /\
  beatCount (st w') = beatCount (st w) /\
  beatIndexRef (refs w') = beatIndexRef (refs w) /\
  (isPlaying (st w) = true \/ audioBufferRef (refs w) <> None ->
     isPlaying (st w') = negb (isPlaying (st w))) /\
  (isPlaying (st w) = false -> audioBufferRef (refs w) = None ->
     onClickPlayStop w = (Normal tt, w)).
Proof.
  unfold onClickPlayStop, outcome, exec, bind at 1 2 3 4 5, gets at 1 2 3 4 5.
  cbv zeta.
  destruct (isPlaying (st w)) eqn:P.
  - destruct (stop_frame w) as (S & R & _).
    unfold exec in S, R. rewrite S, R.
    split; [apply stop_returns|]. repeat split; auto; discriminate.
  - destruct (audioBufferRef (refs w)) as [buf|] eqn:B.
    + destruct (play_frame w buf B) as (N & S & R & _).
      unfold exec, outcome in N, S, R. rewrite S, R.
      repeat split; auto; discriminate.
    + unfold play, bind, gets. rewrite B. cbn.
      repeat split; auto. intros [H|H]; [discriminate|now contradiction H].
Qed.

(* ================================================================== *)
(** * More about the schedule *)
(* ================================================================== *)

Lemma upfrom_length (a : Z) (n : nat) : List.length (upfrom a n) = n.
Proof.
  revert a. induction n as [|n IH]; intro a; cbn; [reflexivity|now rewrite IH].
Qed.

Lemma offBeats_bounds (b0 : Z) (n : nat) : (0 <= offBeats b0 n <= Z.of_nat n)%Z.
Proof.
  unfold offBeats. split; [lia|].
  apply inj_le. rewrite <- (upfrom_length (b0 + 1) n) at 2.
  apply filter_length_le.
Qed.

Lemma planned_le (anchor i sa : Q) (b0 : Z) (n m : nat) :
  0 <= i -> 0 <= sa -> (n <= m)%nat ->
  planned anchor i sa b0 n
    <= anchor + inject_Z (Z.of_nat m) * (i + i * sa * (1 # 2)).
Proof.
  intros Hi Hs L. unfold planned.
  destruct (offBeats_bounds b0 n) as [O1 O2].
  assert (D : 0 <= i * sa * (1 # 2)).
  { apply Qmult_le_0_compat; [|lra]. now apply Qmult_le_0_compat. }
  assert (A : inject_Z (offBeats b0 n) * (i * sa * (1 # 2))
              <= inject_Z (Z.of_nat n) * (i * sa * (1 # 2))).
  { apply Qmult_le_compat_r; [|exact D]. rewrite <- Zle_Qle. exact O2. }
  assert (B : inject_Z (Z.of_nat n) * (i + i * sa * (1 # 2))
              <= inject_Z (Z.of_nat m) * (i + i * sa * (1 # 2))).
  { apply Qmult_le_compat_r; [|lra]. rewrite <- Zle_Qle. lia. }
  lra.
Qed.

Lemma ge_denotes (t : Q) (x : number) (p : Q) :
  x ~= p -> (Fin t >= x)%js = Qle_bool p t.
Proof.
  destruct x as [|q]; unfold denotes; [contradiction|].
  intro H. unfold ge. now rewrite H.
Qed.

Section LatePolls.

Variable id : positive.
Variable c : Closure.
Variables anchor i sa : Q.
Variable b0 : Z.
Hypothesis interval_c : interval c ~= i.
Hypothesis swingAmt_c : swingAmt c ~= sa.
Hypothesis i_nonneg : 0 <= i.
Hypothesis sa_nonneg : 0 <= sa.

(** Polls that all come after the slot of the last of them: each fires. *)
Lemma polls_all_due (ts : list Q) :
  forall (w : World) (n : nat),
    lookup_id id (intervals (env w)) = Some c ->
    beatIndexRef (refs w) = (b0 + Z.of_nat n)%Z ->
    nextBeatTimeRef (refs w) ~= planned anchor i sa b0 n ->
    Forall (fun now =>
              anchor + inject_Z (Z.of_nat (n + List.length ts)) * (i + i * sa * (1 # 2))
              <= now) ts ->
    exists w' : World,
      polls id ts w = (Normal tt, w') /\
      beatCount (st w') = (beatCount (st w) + Z.of_nat (List.length ts))%Z /\
      beatIndexRef (refs w') = (b0 + Z.of_nat (n + List.length ts))%Z.
Proof.
  induction ts as [|t ts IH]; intros w n L B P F.
  - exists w. cbn [List.length]. rewrite Nat.add_0_r, Z.add_0_r. repeat split; auto.
  - inversion F as [|? ? Ft Fr]; subst.
    assert (Due : (Fin t >= nextBeatTimeRef (refs w))%js = true).
    { rewrite (ge_denotes t _ _ P). apply Qle_bool_iff.
      apply Qle_trans with (2 := Ft).
      apply planned_le; auto. lia. }
    destruct (poll_step id c t w L) as (w1 & E1 & L1 & [[G _]|(_ & B1 & P1 & _ & C1 & _)]);
      [congruence|].
    destruct (IH w1 (S n) L1) as (w' & E & C' & B').
    + rewrite B1, B. lia.
    + rewrite P1. apply denotes_eq with (2 := Qeq_sym _ _ (planned_S anchor i sa b0 n)).
      apply add_denotes; [exact P|].
      apply add_denotes; [exact interval_c|].
      rewrite B. now apply swingDelta_denotes.
    + cbn [List.length] in Fr. replace (S n + List.length ts)%nat
        with (n + S (List.length ts))%nat by lia. exact Fr.
    + exists w'. rewrite (polls_cons id t ts w w1 E1).
      split; [exact E|]. cbn [List.length].
      split; [rewrite C', C1; lia|rewrite B'; f_equal; lia].
Qed.

End LatePolls.

(** X6.  Missed beats are all fired, one per poll: let [scheduleBeats] arm
    the scheduler with finite tempo, offset [o] and swing [s >= 0].  If a
    run of polls comes so late that every one of them lies after the slot
    of the last ([anchor + k * (interval + interval*(s/100)*0.5)] for [k]
    polls), then every poll of the run fires a beat: after [k] polls the
    count has advanced by exactly [k].  Nothing is skipped or
    fast-forwarded. *)
Theorem late_polls_fire_every_missed_beat (w : World) (t o s : Q) :
  offsetMs (st w) = Fin o ->
  swing (st w) = Fin s ->
  0 <= s ->
  let w1 := exec (scheduleBeats (Fin t)) w in
  let anchor := clock (env w) + o in
  exists (id : positive) (c : Closure) (i : Q),
    schedulerTimerRef (refs w1) = Some id /\
    armed w1 = Some c /\
    interval c ~= i /\
    forall ts : list Q,
      Forall (fun now =>
                anchor + inject_Z (Z.of_nat (List.length ts))
                         * (i + i * (s / 100) * (1 # 2)) <= now) ts ->
      outcome (polls id ts) w1 = Normal tt /\
      beatCount (st (exec (polls id ts) w1))
        = (beatCount (st w) + Z.of_nat (List.length ts))%Z.
Proof.
  intros Ho Hs Hs0 w1 anchor.
  destruct (scheduleBeats_spec (Fin t) w) as (_ & S1 & R1 & I1 & _ & _ & A1).
  fold w1 in S1, R1, I1, A1.
  destruct (quantize_factor (quantize (st w))) as (qf & Eq & Hqf & _).
  destruct (interval_value t qf Hqf) as (cl & Ecl & Rcl & Hi & Hpos).
  rewrite Eq in A1, I1.
  set (c := {| interval := (Fin 60000 / clamp (Fin t) 40 240 * Fin qf)%js;
               swingAmt := (swing (st w) / Fin 100)%js |}) in *.
  exists (nextId (env w)), c, (60000 / cl * qf).
  assert (Hsa : swingAmt c ~= s / 100).
  { cbn [c swingAmt]. rewrite Hs.
    apply div_denotes; [apply denotes_Fin|apply denotes_Fin|lra]. }
  assert (Hn : nextBeatTimeRef (refs w1) ~= anchor).
  { rewrite R1. cbn. rewrite Ho. apply add_denotes; apply denotes_Fin. }
  assert (L1 : lookup_id (nextId (env w)) (intervals (env w1)) = Some c).
  { rewrite I1. apply lookup_id_head. }
  split; [rewrite R1; reflexivity|]. split; [exact A1|]. split; [exact Hi|].
  intros ts F.
  destruct (polls_all_due (nextId (env w)) c anchor (60000 / cl * qf) (s / 100)
              (beatIndexRef (refs w)) Hi Hsa) with (ts := ts) (w := w1) (n := 0%nat)
    as (w2 & E & C & _); auto.
  - lra.
  - apply Qle_shift_div_l; lra.
  - rewrite R1. cbn. lia.
  - apply denotes_eq with (1 := Hn). unfold planned, offBeats. cbn. ring.
  - unfold outcome, exec. rewrite E. cbn [fst snd]. rewrite C, S1. auto.
Qed.

Lemma late_polls_fire_every_missed_beat_witness :
  offsetMs (st loaded) = Fin 0 /\
  swing (st loaded) = Fin 0 /\
  0 <= 0 /\
  exists (id : positive) (c : Closure) (i : Q),
    schedulerTimerRef (refs (exec (scheduleBeats (Fin 120)) loaded)) = Some id /\
    armed (exec (scheduleBeats (Fin 120)) loaded) = Some c /\
    interval c ~= i.
Proof.
  split; [reflexivity|]. split; [reflexivity|]. split; [lra|].
  destruct (late_polls_fire_every_missed_beat loaded 120 0 0)
    as (id & c & i & A & B & C & _); [reflexivity|reflexivity|lra|].
  exists id, c, i. repeat split; assumption.
Defined.

(** A stall of 2.6 s at 120 bpm: the five polls that follow fire five
    beats within 64 ms. *)
Example run_after_stall :
  let w := exec (play None;; polls 1 [2600; 2616; 2632; 2648; 2664]) loaded in
  beats (trace (env w)) = [1; 2; 3; 4; 5]%Z /\
  nextBeatTimeRef (refs w) = Fin 2500.
Proof. vm_compute. repeat split. Qed.

(** ** A tempo or an offset that is not a number *)

Lemma add_NaN_r (x : number) : (x + NaN)%js = NaN.
Proof. destruct x; reflexivity. Qed.

Lemma add_NaN_l (x : number) : (NaN + x)%js = NaN.
Proof. reflexivity. Qed.

Lemma polls_after_NaN (id : positive) (c : Closure) (ts : list Q) :
  forall w : World,
    lookup_id id (intervals (env w)) = Some c ->
    nextBeatTimeRef (refs w) = NaN ->
    exists w', polls id ts w = (Normal tt, w') /\ quiet w w'.
Proof.
  induction ts as [|t ts IH]; intros w L N.
  - exists w. split; [reflexivity|apply quiet_refl].
  - destruct (poll_step id c t w L) as (w1 & E1 & L1 & [[_ Q1]|(G & _)]).
    + destruct (IH w1 L1) as (w2 & E2 & Q2).
      * destruct Q1 as (R & _). now rewrite R.
      * exists w2. rewrite (polls_cons id t ts w w1 E1).
        split; [exact E2|now apply quiet_trans with (1 := Q1)].
    + rewrite N in G. discriminate G.
Qed.

Lemma polls_NaN_interval (id : positive) (c : Closure) (ts : list Q) :
  interval c = NaN ->
  forall w : World,
    lookup_id id (intervals (env w)) = Some c ->
    exists w',
      polls id ts w = (Normal tt, w') /\
      (beatCount (st w') = beatCount (st w) \/
       (beatCount (st w') = (beatCount (st w) + 1)%Z /\
        nextBeatTimeRef (refs w') = NaN)).
Proof.
  intro Hc. induction ts as [|t ts IH]; intros w L.
  - exists w. split; [reflexivity|now left].
  - destruct (poll_step id c t w L) as (w1 & E1 & L1 & [[_ Q1]|(_ & _ & P1 & _ & C1 & _)]);
      rewrite (polls_cons id t ts w w1 E1).
    + destruct (IH w1 L1) as (w2 & E2 & H).
      exists w2. split; [exact E2|].
      now rewrite (quiet_beatCount _ _ Q1) in H.
    + rewrite Hc, add_NaN_l, add_NaN_r in P1.
      destruct (polls_after_NaN id c ts w1 L1 P1) as (w2 & E2 & Q2).
      exists w2. split; [exact E2|]. right.
      rewrite (quiet_beatCount _ _ Q2), C1.
      destruct Q2 as (R & _). now rewrite R.
Qed.

(** X8.  What is not a number silences the scheduler.  With a tempo of
    [NaN] (what [parseInt] makes of ".5") the interval is [NaN]: at most one
    beat fires, after which the scheduled time is [NaN] and no poll is ever
    due again.  With an offset of [NaN] no beat fires at all.  In both
    cases [scheduleBeats] and every poll return normally. *)
Theorem NaN_silences_the_scheduler (w : World) (tempo : number) (ts : list Q) :
  let w1 := exec (scheduleBeats tempo) w in
  exists id : positive,
    schedulerTimerRef (refs w1) = Some id /\
    let w2 := exec (polls id ts) w1 in
    outcome (polls id ts) w1 = Normal tt /\
    (tempo = NaN ->
       beatCount (st w2) = beatCount (st w) \/
       (beatCount (st w2) = (beatCount (st w) + 1)%Z /\
        nextBeatTimeRef (refs w2) = NaN)) /\
    (offsetMs (st w) = NaN -> beatCount (st w2) = beatCount (st w)).
Proof.
  intro w1.
  destruct (scheduleBeats_spec tempo w) as (_ & S1 & R1 & I1 & _ & _ & _).
  fold w1 in S1, R1, I1.
  exists (nextId (env w)). split; [rewrite R1; reflexivity|].
  eassert (L1 : lookup_id (nextId (env w)) (intervals (env w1)) = Some _).
  { rewrite I1. apply lookup_id_head. }
  destruct (polls_count _ _ ts w1 L1) as (w2 & n & E & _).
  unfold outcome, exec. rewrite E. cbn [fst snd].
  split; [reflexivity|]. split.
  - intros ->.
    match type of L1 with _ = Some ?c =>
      destruct (polls_NaN_interval (nextId (env w)) c ts) with (w := w1)
        as (x & Ex & H); [|exact L1|]
    end.
    + cbn [interval]. rewrite clamp_NaN. reflexivity.
    + rewrite E in Ex. inversion Ex; subst x. now rewrite S1 in H.
  - intro Ho.
    destruct (polls_after_NaN _ _ ts w1 L1) as (x & Ex & Q).
    + rewrite R1. cbn. rewrite Ho. apply add_NaN_r.
    + rewrite E in Ex. inversion Ex; subst x.
      now rewrite (quiet_beatCount _ _ Q), S1.
Qed.

Example run_NaN_tempo :
  let w := exec (setManualBpm NaN;; play None;; polls 1 [0; 500; 1000; 60000]) loaded in
  beats (trace (env w)) = [1%Z] /\ nextBeatTimeRef (refs w) = NaN.
Proof. vm_compute. repeat split. Qed.

(** ** How often the scheduler polls *)

Lemma quantize_factor_range (qz : string) :
  exists qf : Q,
    (if String.eqb qz "1/1" then Fin 1
     else if String.eqb qz "1/2" then Fin 0.5 else Fin 0.25) = Fin qf /\
    (qf = 1 \/ qf = 0.5 \/ qf = 0.25).
Proof.
  destruct (String.eqb qz "1/1"); [|destruct (String.eqb qz "1/2")];
    eexists; (split; [reflexivity|]); auto.
Qed.

(** X9.  Bounds of the schedule: for every finite tempo and whatever the
    quantize string, the armed interval lies between 62.5 ms and 1500 ms,
    and the delay handed to [setInterval] is [interval / 8] capped at 16 ms:
    it lies between 7.8125 ms and 16 ms (the lower guard of 4 ms never
    applies), so the scheduler polls at least eight times per interval. *)
Theorem poll_period_bounds (t : Q) (w : World) :
  let w1 := exec (scheduleBeats (Fin t)) w in
  exists (c : Closure) (i d : Q) (tr : list event) (delay : number),
    armed w1 = Some c /\
    interval c ~= i /\
    125 # 2 <= i <= 1500 /\
    trace (env w1) = tr ++ [IntervalSet (nextId (env w)) delay] /\
    delay ~= d /\
    125 # 16 <= d <= 16 /\
    d * 8 <= i /\
    (i <= 128 -> d == i / 8) /\
    (128 <= i -> d == 16).
Proof.
  intro w1.
  destruct (scheduleBeats_trace (Fin t) w) as (c & A & T). fold w1 in A, T.
  destruct (scheduleBeats_spec (Fin t) w) as (_ & _ & _ & _ & _ & _ & A').
  fold w1 in A'. rewrite A in A'. inversion A' as [Ec]. clear A'.
  destruct (quantize_factor_range (quantize (st w))) as (qf & Eq & Hqf).
  rewrite Eq in Ec.
  assert (Hpos : 0 < qf) by (destruct Hqf as [-> | [-> | ->]]; reflexivity).
  destruct (interval_value t qf Hpos) as (cl & Ecl & Rcl & Hi & _).
  assert (Hc : interval c ~= 60000 / cl * qf) by (rewrite Ec; exact Hi).
  assert (B : 125 # 2 <= 60000 / cl * qf <= 1500).
  { assert (L : 250 <= 60000 / cl) by (apply Qle_shift_div_l; lra).
    assert (U : 60000 / cl <= 1500) by (apply Qle_shift_div_r; lra).
    destruct Hqf as [-> | [-> | ->]]; lra. }
  set (i := 60000 / cl * qf) in *.
  destruct (interval c) as [|x] eqn:Ex; [contradiction|]. unfold denotes in Hc.
  assert (D8 : (Fin x / Fin 8)%js = Fin (Qred (x / 8))) by reflexivity.
  rewrite D8 in T. unfold Math.min, Math.max in T.
  assert (Hx : Qred (x / 8) == i / 8) by (now rewrite Qred_correct, Hc).
  destruct (Qle_bool 16 (Qred (x / 8))) eqn:E1.
  - apply Qle_bool_iff in E1. rewrite Hx in E1.
    assert (E2 : Qle_bool 4 16 = true) by reflexivity.
    rewrite E2 in T.
    eexists c, i, 16, _, (Fin 16).
    split; [exact A|]. split; [rewrite Ex; exact Hc|]. split; [exact B|].
    split; [exact T|]. split; [apply denotes_Fin|].
    assert (I8 : i / 8 * 8 == i) by (field).
    assert (128 <= i) by (rewrite <- I8; lra).
    split; [lra|]. split; [lra|]. split; [intro; lra|reflexivity].
  - apply Qle_bool_false in E1. rewrite Hx in E1.
    assert (I8 : i / 8 * 8 == i) by (field).
    assert (E2 : Qle_bool 4 (Qred (x / 8)) = true).
    { apply Qle_bool_iff. rewrite Hx. lra. }
    rewrite E2 in T.
    eexists c, i, (i / 8), _, (Fin (Qred (x / 8))).
    split; [exact A|]. split; [rewrite Ex; exact Hc|]. split; [exact B|].
    split; [exact T|]. split; [exact Hx|].
    split; [lra|]. split; [lra|]. split; [reflexivity|intro; lra].
Qed.

(* ================================================================== *)
(** * The read-outs and the stage (App.jsx, lines 8, 12-38, 96-112, 301-307, 413) *)
(* ================================================================== *)

From Stdlib Require Import Qround DecimalString.

(** More of JavaScript's numbers: [a - b], [Math.floor], [Math.round],
    truthiness and [a || b]. *)
Definition number_sub : number -> number -> number := lift2 Qminus.

Definition Math_floor (n : number) : number :=
  match n with
  | NaN => NaN
  | Fin q => Fin (inject_Z (Qfloor q))
  end.

Definition Math_round (n : number) : number :=
  match n with
  | NaN => NaN
  | Fin q => Fin (inject_Z (Qfloor (q + (1 # 2))))
  end.

Definition truthy (n : number) : bool :=
  match n with
  | NaN => false
  | Fin q => negb (Qeq_bool q 0)
  end.

Definition or_else (a b : number) : number := if truthy a then a else b.

(** The decimal digits of a natural number. *)
Definition digits (n : Z) : string :=
  NilZero.string_of_uint (N.to_uint (Z.to_N n)).

(** [x.toFixed(0)]: the nearest integer, the larger one on a tie, in
    decimal, with the sign of [x] in front.  A number of 1e21 or more is
    printed in exponent notation by JavaScript; the model prints its digits. *)
Definition toFixed0 (x : number) : string :=
  match x with
  | NaN => "NaN"
  | Fin q =>
      if Qle_bool 0 q then digits (Qfloor (q + (1 # 2)))
      else ("-" ++ digits (Qfloor (- q + (1 # 2))))%string
  end.

(** [const formatMs = (ms) => `${ms.toFixed(0)} ms`;] *)
Definition formatMs (ms : number) : string := (toFixed0 ms ++ " ms")%string.

(** [const tempo = bpm ?? manualBpm;
     const intervalMs = 60000 / clamp(tempo, 40, 240);] and the read-out
    [Beat interval: {formatMs(intervalMs)}] (lines 413, 524). *)
Definition intervalMs (w : World) : number :=
  let tempo := bpm (st w) ?? manualBpm (st w) in
  (Fin 60000 / clamp tempo 40 240)%js.

Definition beatIntervalText (w : World) : string :=
  ("Beat interval: " ++ formatMs (intervalMs w))%string.

(** The runtime tests of lines 12-38, each with its outcome [ok]. *)
Definition runTests : list (string * bool) :=
  let bpm := Fin 120 in
  let beatMs := (Fin 60000 / bpm)%js in
  [ ("clamp-mid"%string, Object_is (clamp 5 0 10) 5);
    ("clamp-low"%string, Object_is (clamp (Fin (-1)) 0 10) 0);
    ("clamp-high"%string, Object_is (clamp 20 0 10) 10);
    ("clamp-edge-low"%string, Object_is (clamp 0 0 10) 0);
    ("clamp-edge-high"%string, Object_is (clamp 10 0 10) 10);
    ("formatMs-0"%string, String.eqb (formatMs 0) "0 ms");
    ("formatMs-1000"%string, String.eqb (formatMs 1000) "1000 ms");
    ("formatMs-1.5"%string, String.eqb (formatMs 1500.49) "1500 ms");
    ("interval-1/1"%string, Object_is (Math_round (beatMs * Fin 1)%js) 500);
    ("interval-1/2"%string, Object_is (Math_round (beatMs * Fin 0.5)%js) 250);
    ("interval-1/4"%string, Object_is (Math_round (beatMs * Fin 0.25)%js) 125);
    ("hit-every-beat"%string, Bool.eqb (shouldHit 8 (Some (Fin 1))) true);
    ("hit-every-2-false"%string, Bool.eqb (shouldHit 3 (Some (Fin 2))) false);
    ("hit-every-2-true"%string, Bool.eqb (shouldHit 4 (Some (Fin 2))) true);
    ("hit-every-4-true"%string, Bool.eqb (shouldHit 8 (Some (Fin 4))) true);
    ("guard-negative-bpm"%string, Object_is (clamp (Fin (-20)) 40 240) 40) ].

(** What [applyLayout] asks of the renderer and the stage. *)
Record Layout : Type := {
  resized : number * number;
  stage_scale : number;
  stage_position : number * number
}.

(** [applyLayout] of [PixiAnimals] (lines 96-112), for the props [width]
    and [height]; [container] is [containerRef.current] with its
    [clientWidth] and [clientHeight], [app] tells whether there is an
    application, and [devicePixelRatio] is [window.devicePixelRatio]:
    [if (!containerRef.current || !app) return;
     let cw = ...clientWidth; let ch = ...clientHeight;
     if (!cw || !ch) { cw = width; ch = height; }
     const dpr = Math.min(window.devicePixelRatio || 1, 2);
     try { app.renderer?.resize?.(Math.max(1, Math.floor(cw*dpr)),
                                  Math.max(1, Math.floor(ch*dpr))); } catch {}
     const sx = cw / width; const sy = ch / height;
     const s = Math.max(0.01, Math.min(sx, sy));
     app.stage.scale.set(s, s);
     app.stage.position.set((cw - width*s)/2, (ch - height*s)/2);]
    The call of [resize] is recorded with its arguments; the styling of the
    canvas element is left out.  The props [width] and [height] are taken
    to be non-zero: a division by zero is [Infinity] in JavaScript and
    [NaN] here. *)
Definition applyLayout (width height : number)
    (container : option (number * number)) (app : bool)
    (devicePixelRatio : option number) : option Layout :=
  match container with
  | None => None
  | Some (clientWidth, clientHeight) =>
      if negb app then None
      else
        let (cw, ch) :=
          if negb (truthy clientWidth) || negb (truthy clientHeight)
          then (width, height) else (clientWidth, clientHeight) in
        let dpr :=
          Math.min (match devicePixelRatio with
                    | Some r => or_else r 1
                    | None => Fin 1
                    end) 2 in
        let sx := (cw / width)%js in
        let sy := (ch / height)%js in
        let s := Math.max 0.01 (Math.min sx sy) in
        Some {| resized := (Math.max 1 (Math_floor (cw * dpr)%js),
                            Math.max 1 (Math_floor (ch * dpr)%js));
                stage_scale := s;
                stage_position :=
                  ((number_sub cw (width * s) / Fin 2)%js,
                   (number_sub ch (height * s) / Fin 2)%js) |}
  end.

(** The part of the Pixi application the hit effect touches: the ready
    flag, the tints of the pads (once the scene is built), and how often
    [_onBeat] has been called.  [mount] sets [_onBeat] and [_pads] in one
    statement, so [_onBeat] is there exactly when the pads are. *)
Record PixiApp : Type := {
  isReady : bool;
  pads : option (list Z);
  onBeatCalls : nat
}.

Definition gold : Z := 0xfde68a.
Definition white : Z := 0xffffff.

(** [app._pads.forEach((p,i)=>{ p.tint = (i===activeArm && (hitDrums))
       ? 0xfde68a : 0xffffff; })], from index [i] on. *)
Fixpoint tintPads (i : Z) (activeArm : Z) (hitDrums : bool) (ps : list Z) : list Z :=
  match ps with
  | [] => []
  | _ :: rest =>
      (if (i =? activeArm)%Z && hitDrums then gold else white)
        :: tintPads (i + 1) activeArm hitDrums rest
  end.

(** The effect on [[activeArm, hitDrums, hitViolin, hitBass]] (lines
    301-307), without the bow:
    [const app = appRef.current; if (!app || !app.__isReady) return;
     if (typeof activeArm === 'number' && app._pads){ ...forEach... }
     if (hitDrums || hitViolin || hitBass){ app._onBeat && app._onBeat(); }] *)
Definition hitEffect (activeArm : Z) (hitDrums hitViolin hitBass : bool)
    (appRef : option PixiApp) : option PixiApp :=
  match appRef with
  | None => None
  | Some app =>
      if negb (isReady app) then Some app
      else
        let ps :=
          match pads app with
          | Some ps => Some (tintPads 0 activeArm hitDrums ps)
          | None => None
          end in
        Some {| isReady := isReady app;
                pads := ps;
                onBeatCalls :=
                  if hitDrums || hitViolin || hitBass
                  then match pads app with
                       | Some _ => S (onBeatCalls app)
                       | None => onBeatCalls app
                       end
                  else onBeatCalls app |}
  end.

(* ================================================================== *)
(** * Properties of the read-outs and the stage *)
(* ================================================================== *)

(** The model agrees with every assertion of the source's runtime tests. *)
Example runTests_all_ok : forallb snd runTests = true.
Proof. vm_compute. reflexivity. Qed.

Example formatMs_examples :
  formatMs (Fin 312.5) = "313 ms"%string /\
  formatMs (Fin (-0.4)) = "-0 ms"%string /\
  formatMs NaN = "NaN ms"%string /\
  beatIntervalText mounted = "Beat interval: 500 ms"%string.
Proof. vm_compute. repeat split. Qed.

Lemma Z_between_Q (n lo hi : Z) (x : Q) :
  inject_Z n <= x + (1 # 2) -> x + (1 # 2) < inject_Z (n + 1) ->
  inject_Z lo <= x -> x <= inject_Z hi ->
  (lo <= n <= hi)%Z.
Proof.
  intros A B L U. split.
  - destruct (Z_lt_le_dec n lo) as [C|C]; [|exact C]. exfalso.
    assert (D : (n + 1 <= lo)%Z) by lia.
    rewrite Zle_Qle in D. lra.
  - destruct (Z_lt_le_dec hi n) as [C|C]; [|exact C]. exfalso.
    assert (D : (hi + 1 <= n)%Z) by lia.
    rewrite Zle_Qle, inject_Z_plus in D. change (inject_Z 1) with 1 in D. lra.
Qed.

(** X10.  The "Beat interval" read-out: for a finite tempo the text is
    "Beat interval: n ms" with [n] the integer nearest to
    [60000 / clamp(tempo, 40, 240)], between 250 and 1500.  The read-out
    ignores quantize: the interval [scheduleBeats] arms is the displayed
    value times 1, 0.5 or 0.25. *)
Theorem beat_interval_readout (w : World) (t : Q) :
  bpm (st w) ?? manualBpm (st w) = Fin t ->
  exists (v : Q) (n : Z) (c : Closure) (qf : Q),
    intervalMs w ~= v /\
    250 <= v <= 1500 /\
    (250 <= n <= 1500)%Z /\
    inject_Z n - (1 # 2) <= v < inject_Z n + (1 # 2) /\
    beatIntervalText w = ("Beat interval: " ++ digits n ++ " ms")%string /\
    armed (exec (scheduleBeats (Fin t)) w) = Some c /\
    interval c ~= v * qf /\
    (quantize (st w) = "1/1"%string -> qf = 1) /\
    (quantize (st w) = "1/2"%string -> qf = 0.5) /\
    (quantize (st w) = "1/4"%string -> qf = 0.25).
Proof.
  intro Ht.
  destruct (scheduleBeats_spec (Fin t) w) as (_ & _ & _ & _ & _ & _ & A).
  destruct (quantize_factor (quantize (st w))) as (qf & Eq & Hqf & Q1 & Q2 & Q4).
  destruct (interval_value t qf Hqf) as (cl & Ecl & Rcl & Hi & _).
  rewrite Eq in A.
  assert (L : 250 <= 60000 / cl) by (apply Qle_shift_div_l; lra).
  assert (U : 60000 / cl <= 1500) by (apply Qle_shift_div_r; lra).
  assert (Ev : intervalMs w = Fin (Qred (60000 / cl))).
  { unfold intervalMs. rewrite Ht, Ecl. unfold Js.div.
    rewrite Qeq_bool_false by lra. reflexivity. }
  set (x := Qred (60000 / cl)) in *.
  assert (Hx : x == 60000 / cl) by apply Qred_correct.
  eexists (60000 / cl), (Qfloor (x + (1 # 2))), _, qf.
  pose proof (Qfloor_le (x + (1 # 2))) as F1.
  pose proof (Qlt_floor (x + (1 # 2))) as F2.
  split; [rewrite Ev; exact Hx|]. split; [lra|].
  split.
  { apply (Z_between_Q _ 250 1500 x); [exact F1|exact F2| |].
    - change (inject_Z 250) with 250. lra.
    - change (inject_Z 1500) with 1500. lra. }
  split; [rewrite inject_Z_plus in F2; change (inject_Z 1) with 1 in F2; lra|].
  split.
  - unfold beatIntervalText, formatMs. rewrite Ev. unfold toFixed0.
    replace (Qle_bool 0 x) with true; [reflexivity|].
    symmetry. apply Qle_bool_iff. lra.
  - split; [exact A|]. cbn [interval]. repeat split; auto.
Qed.

Lemma beat_interval_readout_witness :
  bpm (st mounted) ?? manualBpm (st mounted) = Fin 120 /\
  exists (v : Q) (n : Z),
    intervalMs mounted ~= v /\
    beatIntervalText mounted = ("Beat interval: " ++ digits n ++ " ms")%string.
Proof.
  split; [reflexivity|].
  destruct (beat_interval_readout mounted 120 eq_refl)
    as (v & n & _ & _ & A & _ & _ & _ & B & _).
  exists v, n. split; assumption.
Defined.

Lemma tintPads_spec (activeArm : Z) (hitDrums : bool) (ps : list Z) :
  forall i : Z,
    tintPads i activeArm hitDrums ps =
      map (fun k => if (k =? activeArm)%Z && hitDrums then gold else white)
          (upfrom i (List.length ps)).
Proof.
  induction ps as [|p ps IH]; intro i; cbn; [reflexivity|].
  now rewrite IH.
Qed.

Lemma count_gold_from (a : Z) (n : nat) (i : Z) :
  count_occ Z.eq_dec
    (map (fun k => if (k =? a)%Z && true then gold else white) (upfrom i n)) gold
  = if ((i <=? a) && (a <? i + Z.of_nat n))%Z then 1%nat else 0%nat.
Proof.
  revert i. induction n as [|n IH]; intro i.
  - cbn [upfrom map count_occ].
    destruct (Z.leb_spec i a), (Z.ltb_spec a (i + Z.of_nat 0)); cbn [andb];
      try reflexivity; lia.
  - cbn [upfrom map]. rewrite andb_true_r.
    destruct (Z.eqb_spec i a) as [->|N].
    + rewrite count_occ_cons_eq by reflexivity. rewrite IH.
      destruct (Z.leb_spec (a + 1) a), (Z.leb_spec a a),
               (Z.ltb_spec a (a + Z.of_nat (S n))); cbn [andb];
        try reflexivity; lia.
    + rewrite count_occ_cons_neq by discriminate. rewrite IH.
      destruct (Z.leb_spec (i + 1) a), (Z.leb_spec i a),
               (Z.ltb_spec a (i + 1 + Z.of_nat n)),
               (Z.ltb_spec a (i + Z.of_nat (S n))); cbn [andb];
        try reflexivity; lia.
Qed.

Lemma count_gold_none (a : Z) (n : nat) (i : Z) :
  count_occ Z.eq_dec
    (map (fun k => if (k =? a)%Z && false then gold else white) (upfrom i n)) gold
  = 0%nat.
Proof.
  revert i. induction n as [|n IH]; intro i; [reflexivity|].
  cbn [upfrom map]. rewrite andb_false_r.
  rewrite count_occ_cons_neq by discriminate. apply IH.
Qed.

(** X11.  One pad per drum hit: in every reachable world, once the stage
    is ready and its eight pads are built, the hit effect tints pad
    [beatCount mod 8] gold when [hitDrums] holds and every other pad white;
    so exactly one pad is lit on a drum hit and none otherwise.  [_onBeat]
    is called exactly when one of the three hit flags holds.  Before the
    stage is ready the effect changes nothing. *)
Theorem one_pad_per_drum_hit (w : World) (app : PixiApp) (ps : list Z) :
  reachable w ->
  pads app = Some ps ->
  List.length ps = 8%nat ->
  let app' := hitEffect (activeArm (st w)) (hitDrums w) (hitViolin w) (hitBass w)
                (Some app) in
  (isReady app = false -> app' = Some app) /\
  (isReady app = true ->
     exists ps',
       app' = Some {| isReady := true; pads := Some ps';
                      onBeatCalls :=
                        if hitDrums w || hitViolin w || hitBass w
                        then S (onBeatCalls app) else onBeatCalls app |} /\
       ps' = map (fun k => if (k =? beatCount (st w) mod 8)%Z && hitDrums w
                           then gold else white) [0; 1; 2; 3; 4; 5; 6; 7]%Z /\
       count_occ Z.eq_dec ps' gold = if hitDrums w then 1%nat else 0%nat).
Proof.
  intros R P Len app'.
  destruct (reachable_invariant w R).
  assert (B : (0 <= beatCount (st w) mod 8 < 8)%Z)
    by (apply Z.mod_pos_bound; lia).
  unfold app', hitEffect. split; intros Rd; rewrite Rd; cbn [negb]; [reflexivity|].
  rewrite P, tintPads_spec, Len, arm_follows0.
  eexists. split; [reflexivity|]. split; [reflexivity|].
  change [0; 1; 2; 3; 4; 5; 6; 7]%Z with (upfrom 0 8).
  destruct (hitDrums w).
  - rewrite count_gold_from.
    replace ((0 <=? beatCount (st w) mod 8) && (beatCount (st w) mod 8 <? 0 + Z.of_nat 8))%Z
      with true; [reflexivity|].
    symmetry. apply andb_true_iff. split; [apply Z.leb_le|apply Z.ltb_lt]; lia.
  - apply count_gold_none.
Qed.

Lemma one_pad_per_drum_hit_witness :
  let app := {| isReady := true; pads := Some (repeat white 8); onBeatCalls := 0 |} in
  reachable session /\
  pads app = Some (repeat white 8) /\
  List.length (repeat white 8) = 8%nat /\
  exists ps',
    hitEffect (activeArm (st session)) (hitDrums session) (hitViolin session)
      (hitBass session) (Some app)
    = Some {| isReady := true; pads := Some ps';
              onBeatCalls :=
                if hitDrums session || hitViolin session || hitBass session
                then 1%nat else 0%nat |} /\
    count_occ Z.eq_dec ps' gold = if hitDrums session then 1%nat else 0%nat.
Proof.
  cbv zeta.
  split; [exact session_reachable|]. split; [reflexivity|]. split; [reflexivity|].
  destruct (one_pad_per_drum_hit session
              {| isReady := true; pads := Some (repeat white 8); onBeatCalls := 0 |}
              (repeat white 8) session_reachable eq_refl eq_refl) as [_ H].
  destruct (H eq_refl) as (ps' & A & _ & B).
  exists ps'. split; [exact A|exact B].
Defined.

(** ** The layout of the stage *)

Lemma sub_denotes (x y : number) (p q : Q) :
  x ~= p -> y ~= q -> number_sub x y ~= p - q.
Proof.
  destruct x as [|a], y as [|b]; unfold denotes; try contradiction.
  intros Hp Hq. unfold number_sub, lift2. now rewrite Qred_correct, Hp, Hq.
Qed.

Lemma min_denotes (x y : number) (p q : Q) :
  x ~= p -> y ~= q ->
  exists r, Math.min x y ~= r /\ r <= p /\ r <= q /\ (r == p \/ r == q).
Proof.
  destruct x as [|a], y as [|b]; unfold denotes; try contradiction.
  intros Hp Hq. unfold Math.min.
  destruct (Qle_bool a b) eqn:E.
  - apply Qle_bool_iff in E. exists p. cbn. repeat split; lra.
  - apply Qle_bool_false in E. exists q. cbn. repeat split; lra.
Qed.

Lemma max_denotes (x y : number) (p q : Q) :
  x ~= p -> y ~= q ->
  exists r, Math.max x y ~= r /\ p <= r /\ q <= r /\ (r == p \/ r == q).
Proof.
  destruct x as [|a], y as [|b]; unfold denotes; try contradiction.
  intros Hp Hq. unfold Math.max.
  destruct (Qle_bool a b) eqn:E.
  - apply Qle_bool_iff in E. exists q. cbn. repeat split; lra.
  - apply Qle_bool_false in E. exists p. cbn. repeat split; lra.
Qed.

Lemma truthy_pos (q : Q) : 0 < q -> truthy (Fin q) = true.
Proof.
  intro H. unfold truthy. rewrite Qeq_bool_false; [reflexivity|lra].
Qed.

(** [Math.min(window.devicePixelRatio || 1, 2)] is a finite number, at
    most 2, and 1 when the browser has no [devicePixelRatio]. *)
Lemma pixel_ratio (devicePixelRatio : option number) :
  exists d : Q,
    Math.min (match devicePixelRatio with
              | Some r => or_else r 1
              | None => Fin 1
              end) 2 = Fin d /\
    d <= 2 /\ (devicePixelRatio = None -> d = 1).
Proof.
  assert (G : forall q : Q, exists d : Q,
             Math.min (Fin q) 2 = Fin d /\ d <= 2 /\ (q = 1 -> d = 1)).
  { intro q. unfold Math.min. destruct (Qle_bool q 2) eqn:E.
    - apply Qle_bool_iff in E. exists q. repeat split; auto.
    - exists 2. repeat split; [lra|]. intros ->. discriminate. }
  destruct devicePixelRatio as [[|r]|].
  - destruct (G 1) as (d & A & B & _). exists d. repeat split; auto. discriminate.
  - unfold or_else. destruct (truthy (Fin r)).
    + destruct (G r) as (d & A & B & _). exists d. repeat split; auto. discriminate.
    + destruct (G 1) as (d & A & B & _). exists d. repeat split; auto. discriminate.
  - destruct (G 1) as (d & A & B & C). exists d. repeat split; auto.
Qed.

(** [Math.max(1, Math.floor(x))] of a finite number is an integer, at
    least 1. *)
Lemma max_one_floor (x : Q) :
  Math.max 1 (Math_floor (Fin x)) = of_Z (Z.max 1 (Qfloor x)).
Proof.
  unfold Math.max, Math_floor, of_Z.
  destruct (Qle_bool 1 (inject_Z (Qfloor x))) eqn:E.
  - apply Qle_bool_iff in E. change 1 with (inject_Z 1) in E.
    rewrite <- Zle_Qle in E. now rewrite Z.max_r.
  - apply Qle_bool_false in E. change 1 with (inject_Z 1) in E.
    rewrite <- Zlt_Qlt in E. rewrite Z.max_l by lia. reflexivity.
Qed.

(** A container half as wide as the stage, on a screen of pixel ratio 3. *)
Example layout_half_width :
  applyLayout 960 360 (Some (Fin 480, Fin 360)) true (Some (Fin 3)) =
    Some {| resized := (Fin 960, Fin 720);
            stage_scale := Fin (1 # 2);
            stage_position := (Fin 0, Fin 90) |}.
Proof. vm_compute. reflexivity. Qed.

(** X13.  Before the browser has laid the container out (its client width
    or height is 0), the stage is laid out as in a container of its own
    logical size: scale 1, at the origin. *)
Theorem layout_falls_back_to_logical_size
    (W H : Q) (cw ch : number) (devicePixelRatio : option number) :
  ~ W == 0 -> ~ H == 0 ->
  truthy cw = false \/ truthy ch = false ->
  exists l : Layout,
    applyLayout W H (Some (cw, ch)) true devicePixelRatio = Some l /\
    applyLayout W H (Some (Fin W, Fin H)) true devicePixelRatio = Some l /\
    stage_scale l ~= 1 /\
    fst (stage_position l) ~= 0 /\ snd (stage_position l) ~= 0.
Proof.
  intros HW HH Hc.
  assert (TW : truthy (Fin W) = true)
    by (unfold truthy; rewrite Qeq_bool_false; [reflexivity|exact HW]).
  assert (TH : truthy (Fin H) = true)
    by (unfold truthy; rewrite Qeq_bool_false; [reflexivity|exact HH]).
  assert (E : negb (truthy cw) || negb (truthy ch) = true)
    by (destruct Hc as [-> | ->]; cbn; auto using orb_true_r).
  unfold applyLayout. cbn [negb]. rewrite E, TW, TH. cbn [negb orb].
  assert (Sx : (Fin W / Fin W)%js ~= 1).
  { apply denotes_eq with (p := W / W).
    - apply div_denotes; [apply denotes_Fin|apply denotes_Fin|exact HW].
    - field. exact HW. }
  assert (Sy : (Fin H / Fin H)%js ~= 1).
  { apply denotes_eq with (p := H / H).
    - apply div_denotes; [apply denotes_Fin|apply denotes_Fin|exact HH].
    - field. exact HH. }
  destruct (min_denotes _ _ _ _ Sx Sy) as (m & Hm & M1 & M2 & M3).
  destruct (max_denotes _ _ _ _ (denotes_Fin 0.01) Hm) as (s & Hs & S1 & S2 & S3).
  assert (Em : m == 1) by (destruct M3; assumption).
  assert (Es : s == 1) by (destruct S3 as [Z|Z]; lra).
  pose proof (sub_denotes _ _ _ _ (denotes_Fin W) (mul_denotes _ _ _ _ (denotes_Fin W) Hs)) as Px.
  pose proof (sub_denotes _ _ _ _ (denotes_Fin H) (mul_denotes _ _ _ _ (denotes_Fin H) Hs)) as Py.
  assert (T : ~ 2 == 0) by lra.
  pose proof (div_denotes _ _ _ _ Px (denotes_Fin 2) T) as Qx.
  pose proof (div_denotes _ _ _ _ Py (denotes_Fin 2) T) as Qy.
  eexists. split; [reflexivity|]. split; [reflexivity|].
  cbn [stage_scale stage_position fst snd].
  split; [exact (denotes_eq _ _ _ Hs Es)|].
  split.
  - apply (denotes_eq _ _ _ Qx). rewrite Es. field.
  - apply (denotes_eq _ _ _ Qy). rewrite Es. field.
Qed.

Lemma layout_falls_back_to_logical_size_witness :
  ~ 960 == 0 /\ ~ 360 == 0 /\
  (truthy (Fin 0) = false \/ truthy (Fin 360) = false) /\
  exists l : Layout,
    applyLayout 960 360 (Some (Fin 0, Fin 360)) true None = Some l /\
    stage_scale l ~= 1.
Proof.
  assert (A : ~ 960 == 0) by discriminate.
  assert (B : ~ 360 == 0) by discriminate.
  assert (C : truthy (Fin 0) = false \/ truthy (Fin 360) = false)
    by (left; reflexivity).
  split; [exact A|]. split; [exact B|]. split; [exact C|].
  destruct (layout_falls_back_to_logical_size 960 360 (Fin 0) (Fin 360) None A B C)
    as (l & E & _ & S & _).
  exists l. split; assumption.
Defined.

(** X14.  The renderer is never resized to nothing: in a container with a
    size, whatever the props and whatever [window.devicePixelRatio] is
    (missing, 0, [NaN], negative or huge), both sides asked of the renderer
    are integers, at least 1, and either 1 or at most twice the client
    size; without a [devicePixelRatio] they are the client size rounded
    down, or 1 below that. *)
Theorem renderer_size_bounds
    (width height : number) (cw ch : Q) (devicePixelRatio : option number) :
  0 < cw -> 0 < ch ->
  exists (l : Layout) (a b : Z),
    applyLayout width height (Some (Fin cw, Fin ch)) true devicePixelRatio = Some l /\
    resized l = (of_Z a, of_Z b) /\
    (1 <= a)%Z /\ (1 <= b)%Z /\
    (a = 1%Z \/ inject_Z a <= 2 * cw) /\
    (b = 1%Z \/ inject_Z b <= 2 * ch) /\
    (devicePixelRatio = None ->
       a = Z.max 1 (Qfloor cw) /\ b = Z.max 1 (Qfloor ch)).
Proof.
  intros Hcw Hch.
  unfold applyLayout. cbn [negb].
  rewrite (truthy_pos cw Hcw), (truthy_pos ch Hch). cbn [negb orb].
  destruct (pixel_ratio devicePixelRatio) as (d & -> & D2 & D1).
  unfold Js.mul at 1 2. unfold lift2. rewrite !max_one_floor.
  eexists. exists (Z.max 1 (Qfloor (Qred (cw * d)))), (Z.max 1 (Qfloor (Qred (ch * d)))).
  split; [reflexivity|]. cbn [resized].
  split; [reflexivity|]. split; [lia|]. split; [lia|].
  assert (B : forall c : Q, 0 < c ->
            Z.max 1 (Qfloor (Qred (c * d))) = 1%Z \/
            inject_Z (Z.max 1 (Qfloor (Qred (c * d)))) <= 2 * c).
  { intros c Hc. destruct (Z.max_spec 1 (Qfloor (Qred (c * d)))) as [[_ ->]|[_ ->]];
      [right|now left].
    pose proof (Qfloor_le (Qred (c * d))) as F.
    pose proof (Qred_correct (c * d)) as G.
    assert (c * d <= c * 2) by (apply Qmult_le_l; assumption). lra. }
  split; [apply B; exact Hcw|]. split; [apply B; exact Hch|].
  intro N. rewrite (D1 N).
  assert (F : forall c : Q, Qfloor (Qred (c * 1)) = Qfloor c).
  { intro c. apply Qfloor_comp. rewrite Qred_correct. ring. }
  now rewrite !F.
Qed.

Lemma renderer_size_bounds_witness :
  0 < 480 /\ 0 < 360 /\
  exists (l : Layout) (a b : Z),
    applyLayout 960 360 (Some (Fin 480, Fin 360)) true (Some NaN) = Some l /\
    resized l = (of_Z a, of_Z b) /\ (1 <= a)%Z /\ (1 <= b)%Z.
Proof.
  assert (A : 0 < 480) by reflexivity. assert (B : 0 < 360) by reflexivity.
  split; [exact A|]. split; [exact B|].
  destruct (renderer_size_bounds 960 360 480 360 (Some NaN) A B)
    as (l & a & b & E & R & La & Lb & _).
  exists l, a, b. repeat split; assumption.
Defined.

(** ** Controls that do not reach the scheduler *)

(** X15.  A control touches the scheduler only while playing and only when
    its value really changes: moved while stopped, or set while playing to
    the value it already has ([Object.is], so [NaN] over [NaN] as well),
    it stores the value and nothing else; no timer is cleared or armed, the
    planned beat time stays, the clock is not read and nothing is added to
    the trace. *)
Theorem control_without_effect (ch : change) (w : World) :
  isPlaying (st w) = false \/ differs ch (st w) = false ->
  let w' := exec (apply_change ch) w in
  outcome (apply_change ch) w = Normal tt /\
  st w' = commit ch (st w) /\
  refs w' = refs w /\
  env w' = env w.
Proof.
  intros Hc w'. unfold w'. clear w'.
  destruct w as [s r e]. cbn [st] in Hc.
  destruct Hc as [P|D].
  - destruct ch;
      unfold apply_change, setManualBpm, setQuantize, setSwing, setOffsetMs,
        rescheduleEffect, when, exec, outcome, bind, gets, modify, ret, on_st;
      cbn [st fst snd];
      match goal with |- context [negb ?b] => destruct b end; cbn [negb];
      destruct s; cbn in P |- *; rewrite ?P; cbn; repeat split.
  - destruct ch; cbn [differs] in D; apply negb_false_iff in D;
      unfold apply_change, setManualBpm, setQuantize, setSwing, setOffsetMs,
        when, exec, outcome, bind, gets, modify, ret, on_st; cbn [st fst snd];
      rewrite D; cbn; repeat split.
Qed.

Lemma control_without_effect_witness :
  let w := exec (setManualBpm NaN) (exec (play None) loaded) in
  (isPlaying (st w) = false \/ differs (Tempo NaN) (st w) = false) /\
  isPlaying (st w) = true /\
  refs (exec (apply_change (Tempo NaN)) w) = refs w /\
  env (exec (apply_change (Tempo NaN)) w) = env w.
Proof.
  cbv zeta.
  assert (H : isPlaying (st (exec (setManualBpm NaN) (exec (play None) loaded))) = false \/
              differs (Tempo NaN) (st (exec (setManualBpm NaN) (exec (play None) loaded)))
                = false) by (right; reflexivity).
  split; [exact H|]. split; [reflexivity|].
  destruct (control_without_effect (Tempo NaN)
              (exec (setManualBpm NaN) (exec (play None) loaded)) H)
    as (_ & _ & R & E).
  split; [exact R|exact E].
Defined.
